(** * RSEM [BamAlignment]: payload codec, unit reader and unit writer

    A shallow embedding of [BamAlignment.cpp]: the complement table
    [rnt_table], [BamAlignment::compress], [BamAlignment::decompress],
    [BamAlignment::read] and [BamAlignment::write], together with the
    htslib record layout they manipulate.  Records are flat byte buffers
    described by header fields, exactly as in [bam1_t]; memory accesses
    outside a buffer are undefined behaviour in C and are [None] here. *)

From Stdlib Require Import ZArith Lia.
From stdpp Require Import base option list strings.

Local Open Scope Z_scope.

(** ** Fixed-width integers *)

(** Value of a mathematical integer stored in a [uint32_t]. *)
Definition u32 (x : Z) : Z := x mod 4294967296.

(** Value of a mathematical integer stored in an [int] (two's complement,
    32 bits). *)
Definition i32 (x : Z) : Z := (x + 2147483648) mod 4294967296 - 2147483648.

Definition INT_MAX : Z := 2147483647.

(** ** Byte buffers *)

(** A buffer is the list of its bytes; its length is its capacity. *)
Abbreviation buffer := (list Z) (only parsing).

Definition in_buf (off n : Z) (d : buffer) : bool :=
  (0 <=? off) && (0 <=? n) && (off + n <=? Z.of_nat (length d)).

Definition bytes_at (off n : Z) (d : buffer) : list Z :=
  take (Z.to_nat n) (drop (Z.to_nat off) d).

Definition overwrite (off : Z) (src : list Z) (d : buffer) : buffer :=
  take (Z.to_nat off) d ++ src ++ drop (Z.to_nat off + length src)%nat d.

(** [memset(d + dst, c, n)] *)
Definition memset (d : buffer) (dst c n : Z) : option buffer :=
  if in_buf dst n d then Some (overwrite dst (replicate (Z.to_nat n) c) d)
  else None.

(** [memmove(d + dst, d + src, n)]: the source bytes are read before any
    byte is written, so the ranges may overlap. *)
Definition memmove (d : buffer) (dst src n : Z) : option buffer :=
  if in_buf dst n d && in_buf src n d
  then Some (overwrite dst (bytes_at src n d) d)
  else None.

(** [memcpy(d + dst, s + src, n)] from another buffer [s]. *)
Definition memcpy (d : buffer) (dst : Z) (s : buffer) (src n : Z)
  : option buffer :=
  if in_buf dst n d && in_buf src n s
  then Some (overwrite dst (bytes_at src n s) d)
  else None.

(** ** Alignment records *)

(** The fields of htslib's [bam1_t] (and of its [core]) that the program
    reads or writes. *)
Record bam1_t := mk_bam1 {
  flag : Z;        (* uint16_t core.flag *)
  l_qname : Z;     (* core.l_qname, name length including all NULs *)
  l_extranul : Z;  (* uint8_t core.l_extranul, padding NULs *)
  n_cigar : Z;     (* uint32_t core.n_cigar *)
  l_qseq : Z;      (* int32_t core.l_qseq *)
  l_data : Z;      (* int l_data *)
  data : buffer    (* uint8_t *data, with its capacity *)
}.

Definition set_flag (f : Z) (b : bam1_t) : bam1_t :=
  mk_bam1 f (l_qname b) (l_extranul b) (n_cigar b) (l_qseq b) (l_data b)
          (data b).
Definition set_l_qname (v : Z) (b : bam1_t) : bam1_t :=
  mk_bam1 (flag b) v (l_extranul b) (n_cigar b) (l_qseq b) (l_data b)
          (data b).
Definition set_l_extranul (v : Z) (b : bam1_t) : bam1_t :=
  mk_bam1 (flag b) (l_qname b) v (n_cigar b) (l_qseq b) (l_data b) (data b).
Definition set_l_qseq (v : Z) (b : bam1_t) : bam1_t :=
  mk_bam1 (flag b) (l_qname b) (l_extranul b) (n_cigar b) v (l_data b)
          (data b).
Definition set_l_data (v : Z) (b : bam1_t) : bam1_t :=
  mk_bam1 (flag b) (l_qname b) (l_extranul b) (n_cigar b) (l_qseq b) v
          (data b).
Definition set_data (d : buffer) (b : bam1_t) : bam1_t :=
  mk_bam1 (flag b) (l_qname b) (l_extranul b) (n_cigar b) (l_qseq b)
          (l_data b) d.

(** *** htslib accessors ([sam.h]); offsets are relative to [data] *)

(** [(b)->core.n_cigar<<2], a [uint32_t]. *)
Definition cigar_bytes (b : bam1_t) : Z := u32 (Z.shiftl (n_cigar b) 2).
(** [((b)->core.l_qseq + 1)>>1] *)
Definition seq_bytes (b : bam1_t) : Z := Z.shiftr (l_qseq b + 1) 1.

(** [bam_get_qname(b) = b->data] *)
Definition qname_off (b : bam1_t) : Z := 0.
(** [bam_get_cigar(b) = b->data + l_qname] *)
Definition cigar_off (b : bam1_t) : Z := l_qname b.
(** [bam_get_seq(b) = b->data + (n_cigar<<2) + l_qname] *)
Definition seq_off (b : bam1_t) : Z := cigar_bytes b + l_qname b.
(** [bam_get_qual(b) = b->data + (n_cigar<<2) + l_qname + ((l_qseq+1)>>1)] *)
Definition qual_off (b : bam1_t) : Z :=
  cigar_bytes b + l_qname b + seq_bytes b.
(** [bam_get_aux(b) = bam_get_qual(b) + l_qseq] *)
Definition aux_off (b : bam1_t) : Z :=
  cigar_bytes b + l_qname b + seq_bytes b + l_qseq b.
(** [bam_get_l_aux(b)], assigned to an [int]. *)
Definition bam_get_l_aux (b : bam1_t) : Z :=
  i32 (l_data b - cigar_bytes b - l_qname b - l_qseq b - seq_bytes b).

Definition BAM_FPAIRED : Z := 1.
Definition BAM_FUNMAP : Z := 4.
Definition BAM_FREVERSE : Z := 16.
Definition BAM_FREAD1 : Z := 64.
Definition BAM_FREAD2 : Z := 128.

(** [bam_is_rev(b) = ((b)->core.flag & BAM_FREVERSE) != 0] *)
Definition bam_is_rev (b : bam1_t) : bool :=
  negb (Z.land (flag b) BAM_FREVERSE =? 0).

(** The five segments of the payload, as byte lists. *)
Definition get_qname (b : bam1_t) : list Z :=
  bytes_at (qname_off b) (l_qname b) (data b).
Definition get_cigar (b : bam1_t) : list Z :=
  bytes_at (cigar_off b) (cigar_bytes b) (data b).
Definition get_seq (b : bam1_t) : list Z :=
  bytes_at (seq_off b) (seq_bytes b) (data b).
Definition get_qual (b : bam1_t) : list Z :=
  bytes_at (qual_off b) (l_qseq b) (data b).
Definition get_aux (b : bam1_t) : list Z :=
  bytes_at (aux_off b) (bam_get_l_aux b) (data b).

(** Logical name length: the name length without its padding NULs. *)
Definition logical_name_length (b : bam1_t) : Z := l_qname b - l_extranul b.
Definition compacted (b : bam1_t) : Prop := logical_name_length b = 1.
Definition uncompacted (b : bam1_t) : Prop := 1 < logical_name_length b.

(** ** The complement table *)

(** [const uint8_t BamAlignment::rnt_table[16]] *)
Definition rnt_table_entries : list Z :=
  [0; 8; 4; 0; 2; 0; 0; 0; 1; 0; 0; 0; 0; 0; 0; 15].

Definition rnt_table (c : Z) : Z :=
  default 0 (rnt_table_entries !! Z.to_nat c).

(** A code has a defined complement when its entry is not the filler 0
    used for the unused codes. *)
Definition has_complement (c : Z) : Prop := rnt_table c <> 0.

(** ** Packed nucleotide sequences *)

(** htslib's [bam_seqi(s, i)]: base [i] is the high nibble of byte [i/2]
    when [i] is even and its low nibble when [i] is odd. *)
Definition bam_seqi (s : list Z) (i : nat) : Z :=
  let byte := default 0 (s !! (i / 2)%nat) in
  if Nat.even i then Z.land (Z.shiftr byte 4) 15 else Z.land byte 15.

(** The first [len] bases of a packed sequence. *)
Definition unpack (s : list Z) (len : nat) : list Z :=
  map (bam_seqi s) (seq 0 len).

(** Two bases per byte, first base in the high nibble; an odd last base
    leaves the low nibble 0. *)
Fixpoint pack (codes : list Z) : list Z :=
  match codes with
  | [] => []
  | [a] => [Z.shiftl a 4]
  | a :: c :: rest => Z.lor (Z.shiftl a 4) c :: pack rest
  end.

(** Reverse complement of [len] packed bases: base order reversed and every
    base sent through [rnt_table]. *)
Definition rc_seq (s : list Z) (len : nat) : list Z :=
  pack (map rnt_table (reverse (unpack s len))).

(** Modelled from the spec: [copy_rc_seq(dst, src, len)] is declared in
    [BamAlignment.hpp], a header outside the file verified here.  Following
    section 4.4 step 5 it writes at [dst] the reverse complement of the [len]
    bases packed at [src]: reverse base order and apply the complement table
    to every base. *)
Definition copy_rc_seq (d : buffer) (dst : Z) (s : buffer) (src len : Z)
  : option buffer :=
  let n := Z.quot (len + 1) 2 in
  if in_buf dst n d && in_buf src n s
  then Some (overwrite dst (rc_seq (bytes_at src n s) (Z.to_nat len)) d)
  else None.

(** Modelled from the spec: [copy_r_qual(dst, src, len)] is declared in
    [BamAlignment.hpp], a header outside the file verified here.  Following
    section 4.4 step 5 it writes at [dst] the [len] quality bytes at [src] in
    reverse order, values unchanged. *)
Definition copy_r_qual (d : buffer) (dst : Z) (s : buffer) (src len : Z)
  : option buffer :=
  if in_buf dst len d && in_buf src len s
  then Some (overwrite dst (reverse (bytes_at src len s)) d)
  else None.

(** ** The payload codec *)

(** What the allocator behind [expand_data_size] must provide: a buffer of
    at least the requested size that starts with the old content.  The bytes
    after the old content are whatever the allocator returns. *)
Definition grows (grow : buffer -> Z -> buffer) : Prop :=
  forall (d : buffer) (n : Z),
    Z.of_nat (length d) < n ->
    n <= Z.of_nat (length (grow d n)) /\ d `prefix_of` grow d n.

(** An allocator that rounds nothing up and hands out zeroed bytes. *)
Definition grow_zeroed (d : buffer) (n : Z) : buffer :=
  d ++ replicate (Z.to_nat n - length d) 0.

(** Modelled from the spec: [expand_data_size(b)] is declared in
    [BamAlignment.hpp], a header outside the file verified here.  Following
    section 4.4 step 2 and section 9 it grows the buffer to at least the
    total payload length, preserving the existing content, and allocates
    only if the current buffer is undersized. *)
Definition expand_data_size (grow : buffer -> Z -> buffer) (b : bam1_t)
  : bam1_t :=
  if Z.of_nat (length (data b)) <? l_data b
  then set_data (grow (data b) (l_data b)) b
  else b.

(** [void BamAlignment::compress(bam1_t* b)] *)
Definition compress (b : bam1_t) : option bam1_t :=
  let l_aux := bam_get_l_aux b in
  d1 ← memset (data b) 0 0 4;
  d2 ← memmove d1 4 (cigar_off b) (u32 (n_cigar b * 4));
  d3 ← memmove d2 (4 + u32 (n_cigar b * 4)) (aux_off b) l_aux;
  Some (set_l_qseq 0
         (set_l_extranul 3
           (set_l_qname 4
             (set_l_data (i32 (4 + u32 (n_cigar b * 4) + l_aux))
               (set_data d3 b))))).

(** [void BamAlignment::decompress(bam1_t* b, bam1_t* other)] *)
Definition decompress (grow : buffer -> Z -> buffer) (b other : bam1_t)
  : option bam1_t :=
  let l_aux := bam_get_l_aux b in
  let b := set_l_qname (l_qname other) b in
  let b := set_l_extranul (l_extranul other) b in
  let b := set_l_qseq (l_qseq other) b in
  let b := set_l_data (i32 (l_qname b + u32 (n_cigar b * 4)
                            + Z.quot (l_qseq b + 1) 2 + l_qseq b + l_aux)) b in
  let b := expand_data_size grow b in
  d1 ← memmove (data b) (aux_off b) (4 + u32 (n_cigar b * 4)) l_aux;
  d2 ← memmove d1 (cigar_off b) 4 (u32 (n_cigar b * 4));
  d3 ← memcpy d2 (qname_off b) (data other) (qname_off other) (l_qname b);
  if bool_decide (bam_is_rev b = bam_is_rev other) then
    d4 ← memcpy d3 (seq_off b) (data other) (seq_off other)
                (Z.quot (l_qseq b + 1) 2);
    d5 ← memcpy d4 (qual_off b) (data other) (qual_off other) (l_qseq b);
    Some (set_data d5 b)
  else
    d4 ← copy_rc_seq d3 (seq_off b) (data other) (seq_off other) (l_qseq b);
    d5 ← copy_r_qual d4 (qual_off b) (data other) (qual_off other) (l_qseq b);
    Some (set_data d5 b).

(** *** Well-formed records *)

(** The invariant htslib maintains for every record it hands out: the name
    slot is NUL padded to a multiple of four bytes (so that the CIGAR words
    are aligned) with at most three padding NULs and at least one name byte,
    the counts are not negative, the segments fit in the payload, and the
    payload fits in the buffer and in an [int]. *)
Record wf_record (b : bam1_t) : Prop := mk_wf {
  wf_extranul : 0 <= l_extranul b <= 3;
  wf_name : l_extranul b < l_qname b;
  wf_aligned : l_qname b mod 4 = 0;
  wf_cigar : 0 <= n_cigar b;
  wf_qseq : 0 <= l_qseq b;
  wf_layout :
    l_qname b + 4 * n_cigar b + (l_qseq b + 1) / 2 + l_qseq b <= l_data b;
  wf_int : l_data b <= INT_MAX;
  wf_capacity : l_data b <= Z.of_nat (length (data b))
}.

(** The spec's [ceil(seq_length / 2)]. *)
Definition ceil_half (x : Z) : Z := (x + 1) / 2.

(** The layout invariant of section 3 for a record whose auxiliary block has
    [l_aux] bytes. *)
Definition layout_invariant (b : bam1_t) (l_aux : Z) : Prop :=
  l_data b
  = l_qname b + 4 * n_cigar b + ceil_half (l_qseq b) + l_qseq b + l_aux.

(** Payload length of [b] once restored from the donor [other]. *)
Definition restored_length (b other : bam1_t) : Z :=
  l_qname other + 4 * n_cigar b + (l_qseq other + 1) / 2 + l_qseq other
  + bam_get_l_aux b.

(** [c'] is a copy of the record [c] into a buffer of its own: the header
    is the same except for the flags, which are free, and the payload bytes
    are the same; the new buffer may be larger or smaller than the old one
    as long as it holds the payload. *)
Definition payload_copy (c c' : bam1_t) : Prop :=
  l_qname c' = l_qname c /\ l_extranul c' = l_extranul c /\
  n_cigar c' = n_cigar c /\ l_qseq c' = l_qseq c /\ l_data c' = l_data c /\
  l_data c <= Z.of_nat (length (data c')) /\
  bytes_at 0 (l_data c) (data c') = bytes_at 0 (l_data c) (data c).

(** *** A sample read *)

(** Name [r1] (3 bytes with its NUL, 1 padding NUL), one CIGAR operation
    [4M], bases A C G T, qualities 10 20 30 40, and a 3-byte auxiliary
    block. *)
Definition sample_record (fl : Z) : bam1_t :=
  mk_bam1 fl 4 1 1 4 17
    [114; 49; 0; 0;  64; 0; 0; 0;  18; 72;  10; 20; 30; 40;  88; 89; 90].

(** Name [read1] (6 bytes with its NUL, 2 padding NULs), otherwise as
    [sample_record]. *)
Definition sample_record8 (fl : Z) : bam1_t :=
  mk_bam1 fl 8 2 1 4 21
    [114; 101; 97; 100; 49; 0; 0; 0;  64; 0; 0; 0;  18; 72;
     10; 20; 30; 40;  88; 89; 90].

(** [sample_record8] after [compress], in its original buffer. *)
Definition sample_compressed8 (fl : Z) : bam1_t :=
  mk_bam1 fl 4 3 1 0 11
    [0; 0; 0; 0;  64; 0; 0; 0;  88; 89; 90;
     0; 18; 72; 10; 20; 30; 40; 88; 89; 90].

(** A compacted record in a buffer that holds just its payload. *)
Definition sample_compacted (fl : Z) : bam1_t :=
  mk_bam1 fl 4 3 1 0 11 [0; 0; 0; 0;  64; 0; 0; 0;  88; 89; 90].

(** Name [read] (5 bytes with its NUL, 3 padding NULs), otherwise as
    [sample_record]. *)
Definition sample_record8_pad3 (fl : Z) : bam1_t :=
  mk_bam1 fl 8 3 1 4 21
    [114; 101; 97; 100; 0; 0; 0; 0;  64; 0; 0; 0;  18; 72;
     10; 20; 30; 40;  88; 89; 90].

(** A record in the legacy compacted form: raw name length 1, no padding,
    and a stale sequence length. *)
Definition sample_legacy (fl : Z) : bam1_t :=
  mk_bam1 fl 1 0 1 4 8 [0;  64; 0; 0; 0;  88; 89; 90].

(** ** Outcomes, the record store and the two collaborators *)

(** How a call ends: it returns, the process is aborted by a failed
    [general_assert] or [assert] (a fatal defect), or the behaviour is
    undefined in C (a wild pointer, an access outside a buffer). *)
Inductive outcome (A : Type) : Type :=
| Ret (a : A)
| Fatal (msg : string)
| Undefined.
Arguments Ret {A} a.
Arguments Fatal {A} msg.
Arguments Undefined {A}.

(** [bam1_t*] pointers are addresses into [heap]; [NULL] is [None].  The
    record source ([SamParser]) is the list of records still to be read, the
    record sink ([BamWriter]) the list of records written so far. *)
Record world := mk_world {
  heap : list bam1_t;
  source : list bam1_t;
  sink : list bam1_t
}.

Definition M (A : Type) : Type := world -> outcome (A * world).

Definition M_ret {A} (a : A) : M A := fun w => Ret (a, w).
Definition M_bind {A B} (f : A -> M B) (m : M A) : M B :=
  fun w =>
    match m w with
    | Ret (a, w') => f a w'
    | Fatal msg => Fatal msg
    | Undefined => Undefined
    end.

#[global] Instance M_mret : MRet M := @M_ret.
#[global] Instance M_mbind : MBind M := @M_bind.

Definition abort {A} (msg : string) : M A := fun _ => Fatal msg.
Definition undefined {A} : M A := fun _ => Undefined.

(** [bam_init1()]: a fresh, zeroed record with no buffer. *)
Definition empty_record : bam1_t := mk_bam1 0 0 0 0 0 0 [].
Definition bam_init1 : M nat :=
  fun w =>
    Ret (length (heap w),
         mk_world (heap w ++ [empty_record]) (source w) (sink w)).

(** [*p] *)
Definition deref (p : nat) : M bam1_t :=
  fun w =>
    match heap w !! p with
    | Some r => Ret (r, w)
    | None => Undefined
    end.

(** [*p = r] *)
Definition assign (p : nat) (r : bam1_t) : M unit :=
  fun w =>
    if bool_decide (p < length (heap w))%nat
    then Ret (tt, mk_world (<[p := r]> (heap w)) (source w) (sink w))
    else Undefined.

(** [in->read(p)]: the next record of the source is read into the buffer
    at [p]; [false] when the source is exhausted. *)
Definition parser_read (p : nat) : M bool :=
  fun w =>
    match source w with
    | [] => Ret (false, w)
    | r :: rest =>
        if bool_decide (p < length (heap w))%nat
        then Ret (true, mk_world (<[p := r]> (heap w)) rest (sink w))
        else Undefined
    end.

(** [out->write(p)] *)
Definition writer_write (p : nat) : M unit :=
  fun w =>
    match heap w !! p with
    | Some r => Ret (tt, mk_world (heap w) (source w) (sink w ++ [r]))
    | None => Undefined
    end.

(** Modelled from the spec: [general_assert(expr, errmsg)] is declared in
    [my_assert.h], a header outside the file verified here.  Following
    section 7 a violated condition is a fatal defect: the process is
    aborted with the message, nothing is returned to the caller. *)
Definition general_assert (expr : bool) (errmsg : string) : M unit :=
  if expr then mret tt else abort errmsg.

(** [assert(expr)] of [<cassert>]. *)
Definition assert (expr : bool) : M unit :=
  if expr then mret tt else abort "assertion failed".

(** *** Flag tests *)

(** Modelled from the spec: the tests [bam_is_paired], [bam_is_mapped] and
    [bam_is_read2] are macros of a header that is not part of the sources
    at hand; they read the pairing flag, the mapped flag (the record is
    mapped when the unmapped bit is clear) and the second-in-pair flag of
    section 6. *)
Definition bam_is_paired (r : bam1_t) : bool :=
  negb (Z.land (flag r) BAM_FPAIRED =? 0).
Definition bam_is_mapped (r : bam1_t) : bool :=
  Z.land (flag r) BAM_FUNMAP =? 0.
Definition bam_is_read1 (r : bam1_t) : bool :=
  negb (Z.land (flag r) BAM_FREAD1 =? 0).
Definition bam_is_read2 (r : bam1_t) : bool :=
  negb (Z.land (flag r) BAM_FREAD2 =? 0).

(** *** CIGAR-implied read length (htslib) *)

(** A little-endian word. *)
Definition le_word (bs : list Z) : Z := foldr (fun x acc => x + 256 * acc) 0 bs.

Definition bam_cigar_op (c : Z) : Z := Z.land c 15.
Definition bam_cigar_oplen (c : Z) : Z := Z.shiftr c 4.
(** [BAM_CIGAR_TYPE = 0x3C1A7]; bit 0 of the type: the operation consumes
    the query. *)
Definition bam_cigar_type (o : Z) : Z :=
  Z.land (Z.shiftr 246183 (Z.shiftl o 1)) 3.

Fixpoint cigar2qlen (n : nat) (cigar : list Z) : Z :=
  match n with
  | O => 0
  | S n' =>
      let c := le_word (take 4 cigar) in
      (if Z.land (bam_cigar_type (bam_cigar_op c)) 1 =? 0 then 0
       else bam_cigar_oplen c)
      + cigar2qlen n' (drop 4 cigar)
  end.

(** [bam_cigar2qlen(b->core.n_cigar, bam_get_cigar(b))] *)
Definition bam_cigar2qlen (r : bam1_t) : Z :=
  cigar2qlen (Z.to_nat (n_cigar r)) (drop (Z.to_nat (cigar_off r)) (data r)).

(** ** The alignment object *)

Record BamAlignment := mk_aln {
  is_paired : bool;
  is_aligned : Z;          (* char; -1 before the first successful read *)
  b : option nat;          (* bam1_t *b *)
  b2 : option nat          (* bam1_t *b2 *)
}.

Definition b2z (x : bool) : Z := if x then 1 else 0.

(** [if (p == NULL) p = bam_init1();] *)
Definition or_init (p : option nat) : M nat :=
  match p with
  | Some a => mret a
  | None => bam_init1
  end.

(** A pointer that is dereferenced: [NULL] is undefined behaviour. *)
Definition nonnull (p : option nat) : M nat :=
  match p with
  | Some a => mret a
  | None => undefined
  end.

(** The messages of the two [general_assert] of [read]. *)
Definition msg_other_mate : string :=
  "Fail to read the other mate for a paired-end alignment!".
Definition msg_both_mates : string :=
  "Cannot detect both mates of a paired-end alignment!".

(** Lines 47-56 of [read]: the second mate is read into [b2], the pairing
    is checked, and the two pointers are exchanged when [b] holds mate 2.
    The result is the pair of the new [b] and the new [b2]. *)
Definition read_second_mate (this : BamAlignment) (pb : nat)
  : M (nat * option nat) :=
  pb2 ← or_init (b2 this);
  ok2 ← parser_read pb2;
  ok2 ← (if (ok2 : bool) then r2 ← deref pb2; mret (bam_is_paired r2)
         else mret false);
  general_assert ok2 msg_other_mate;;
  r ← deref pb;
  r2 ← deref pb2;
  general_assert
    (((Z.land (flag r) 192 =? 64) && (Z.land (flag r2) 192 =? 128))
     || ((Z.land (flag r) 192 =? 128) && (Z.land (flag r2) 192 =? 64)))
    msg_both_mates;;
  if bam_is_read2 r then mret (pb2, Some pb) else mret (pb, Some pb2).

(** Lines 58-69 of [read]: [is_aligned] and the two length checks.  The
    only use of [o] is [o->getSeqLength(mate)], the length hint of
    section 6, passed here as the function [getSeqLength]. *)
Definition read_status (getSeqLength : Z -> Z) (paired : bool) (pb : nat)
  (pb2 : option nat) : M (bool * BamAlignment) :=
  r ← deref pb;
  let aligned := b2z (bam_is_mapped r) in
  aligned ←
    (if paired then
       p2 ← nonnull pb2;
       r2 ← deref p2;
       mret (Z.lor aligned (Z.shiftl (b2z (bam_is_mapped r2)) 1))
     else mret aligned);
  let tmp_len := if l_qseq r <=? 0 then getSeqLength 1 else l_qseq r in
  tmp_len2 ←
    (if paired then
       p2 ← nonnull pb2;
       r2 ← deref p2;
       mret (if l_qseq r2 <=? 0 then getSeqLength 2 else l_qseq r2)
     else mret 0);
  assert ((Z.land aligned 1 =? 0) || (tmp_len =? bam_cigar2qlen r));;
  (if Z.land aligned 2 =? 0 then mret tt
   else
     p2 ← nonnull pb2;
     r2 ← deref p2;
     assert (tmp_len2 =? bam_cigar2qlen r2));;
  mret (true, mk_aln paired aligned (Some pb) pb2).

(** [bool BamAlignment::read(SamParser *in, BamAlignment *o)] *)
Definition read (getSeqLength : Z -> Z) (this : BamAlignment)
  : M (bool * BamAlignment) :=
  let is_aligned0 := -1 in
  pb ← or_init (b this);
  ok ← parser_read pb;
  if negb ok
  then mret (false, mk_aln (is_paired this) is_aligned0 (Some pb) (b2 this))
  else
    r ← deref pb;
    let paired := bam_is_paired r in
    ptrs ←
      (if paired then read_second_mate this pb else mret (pb, b2 this));
    read_status getSeqLength paired
      (ptrs : nat * option nat).1 (ptrs : nat * option nat).2.

(** [compress(p)] and [decompress(p, q)] on records of the store. *)
Definition compress_at (p : nat) : M unit :=
  r ← deref p;
  match compress r with
  | Some r' => assign p r'
  | None => undefined
  end.

Definition decompress_at (grow : buffer -> Z -> buffer) (p : nat)
  (q : option nat) : M unit :=
  q ← nonnull q;
  if bool_decide (p = q) then undefined
  else
    r ← deref p;
    other ← deref q;
    match decompress grow r other with
    | Some r' => assign p r'
    | None => undefined
    end.

(** [if (p->core.l_qname == 1) p->core.l_qseq = 0;] *)
Definition reset_at (p : nat) : M unit :=
  r ← deref p;
  if l_qname r =? 1 then assign p (set_l_qseq 0 r) else mret tt.

(** Lines 76-77 of [write]: the legacy compacted form. *)
Definition write_reset_qseq (this : BamAlignment) : M unit :=
  pb ← nonnull (b this);
  reset_at pb;;
  if is_paired this then pb2 ← nonnull (b2 this); reset_at pb2
  else mret tt.

(** [o->b] and [o->b2]; [o] itself may be [NULL]. *)
Definition donor (o : option BamAlignment)
  (field : BamAlignment -> option nat) : M (option nat) :=
  match o with
  | Some o => mret (field o)
  | None => undefined
  end.

(** The [switch (choice)] of [write]. *)
Definition write_choice (grow : buffer -> Z -> buffer) (choice : Z)
  (o : option BamAlignment) (this : BamAlignment) : M unit :=
  match choice with
  | 0 => mret tt
  | 1 =>
      pb ← nonnull (b this);
      r ← deref pb;
      (if 1 <? l_qname r - l_extranul r then compress_at pb else mret tt);;
      if is_paired this then
        pb2 ← nonnull (b2 this);
        r2 ← deref pb2;
        if 1 <? l_qname r2 - l_extranul r2 then compress_at pb2 else mret tt
      else mret tt
  | 2 =>
      pb ← nonnull (b this);
      r ← deref pb;
      (if l_qname r - l_extranul r =? 1
       then q ← donor o b; decompress_at grow pb q
       else mret tt);;
      if is_paired this then
        pb2 ← nonnull (b2 this);
        r2 ← deref pb2;
        r ← deref pb;
        if l_qname r2 - l_extranul r =? 1
        then q ← donor o b2; decompress_at grow pb2 q
        else mret tt
      else mret tt
  | _ => assert false
  end.

(** Lines 93-94 of [write]. *)
Definition write_forward (this : BamAlignment) : M unit :=
  pb ← nonnull (b this);
  writer_write pb;;
  if is_paired this then pb2 ← nonnull (b2 this); writer_write pb2
  else mret tt.

(** [bool BamAlignment::write(BamWriter *out, int choice, BamAlignment *o)];
    [o] may be [NULL] ([None]) when no donor is needed. *)
Definition write (grow : buffer -> Z -> buffer) (choice : Z)
  (o : option BamAlignment) (this : BamAlignment) : M bool :=
  assert ((0 <=? is_aligned this) && bool_decide (is_Some (b this))
          && (negb (is_paired this) || bool_decide (is_Some (b2 this))));;
  write_reset_qseq this;;
  write_choice grow choice o this;;
  write_forward this;;
  mret true.

(** An object before its first [read]: no buffer yet. *)
Definition fresh_object : BamAlignment := mk_aln false (-1) None None.

(** ** Vocabulary of the statements about [read] and [write] *)

(** The address held by a pointer after [if (p == NULL) p = bam_init1();]
    in the store [h], and the store after it. *)
Definition buffer_of (p : option nat) (h : list bam1_t) : nat :=
  default (length h) p.
Definition heap_with (p : option nat) (h : list bam1_t) : list bam1_t :=
  match p with
  | Some _ => h
  | None => h ++ [empty_record]
  end.

(** The object owns its buffers: a pointer that is not [NULL] points into
    the store, and [b] and [b2] are different buffers. *)
Definition valid_ptr (p : option nat) (h : list bam1_t) : Prop :=
  forall a, p = Some a -> (a < length h)%nat.
Definition object_ok (this : BamAlignment) (h : list bam1_t) : Prop :=
  valid_ptr (b this) h /\ valid_ptr (b2 this) h /\
  forall a, b this = Some a -> b2 this <> Some a.

(** The condition of the second [general_assert] of [read]. *)
Definition mates_complementary (r r2 : bam1_t) : bool :=
  ((Z.land (flag r) 192 =? 64) && (Z.land (flag r2) 192 =? 128))
  || ((Z.land (flag r) 192 =? 128) && (Z.land (flag r2) 192 =? 64)).

(** The effective sequence length of a mate ([tmp_len], [tmp_len2]) and the
    condition of the [assert] on it. *)
Definition resolved_length (getSeqLength : Z -> Z) (mate : Z) (r : bam1_t)
  : Z :=
  if l_qseq r <=? 0 then getSeqLength mate else l_qseq r.
Definition length_check (getSeqLength : Z -> Z) (mate : Z) (r : bam1_t)
  : bool :=
  negb (bam_is_mapped r)
  || (resolved_length getSeqLength mate r =? bam_cigar2qlen r).

(** The alignment status as the specification words it:
    (mate 1 mapped ? 1 : 0) | (paired and mate 2 mapped ? 2 : 0). *)
Definition spec_status (paired mapped1 mapped2 : bool) : Z :=
  Z.lor (if mapped1 then 1 else 0) (if paired && mapped2 then 2 else 0).

(** The buffers of the unit: [b], and [b2] when the unit is paired. *)
Definition unit_buffer (this : BamAlignment) (p : nat) : Prop :=
  b this = Some p \/ (is_paired this = true /\ b2 this = Some p).

(** What lines 76-77 of [write] leave in a buffer that held [r]. *)
Definition reset_qseq (r : bam1_t) : bam1_t :=
  if l_qname r =? 1 then set_l_qseq 0 r else r.

(** The outcome of [read], case by case, for an object that owns its
    buffers; [read_closed_form] proves that [read] computes it. *)
Definition read_outcome (getSeqLength : Z -> Z) (this : BamAlignment)
  (w : world) : outcome (bool * BamAlignment * world) :=
  let p1 := buffer_of (b this) (heap w) in
  match source w with
  | [] =>
      Ret ((false, mk_aln (is_paired this) (-1) (Some p1) (b2 this)),
           mk_world (heap_with (b this) (heap w)) [] (sink w))
  | r1 :: rest =>
      let h1 := <[p1 := r1]> (heap_with (b this) (heap w)) in
      if bam_is_paired r1 then
        match rest with
        | [] => Fatal msg_other_mate
        | r2 :: rest' =>
            let p2 := buffer_of (b2 this) h1 in
            let h2 := <[p2 := r2]> (heap_with (b2 this) h1) in
            let swap := bam_is_read2 r1 in
            let m1 := if swap then r2 else r1 in
            let m2 := if swap then r1 else r2 in
            if negb (bam_is_paired r2) then Fatal msg_other_mate
            else if negb (mates_complementary r1 r2) then Fatal msg_both_mates
            else if length_check getSeqLength 1 m1
                    && length_check getSeqLength 2 m2
            then Ret ((true,
                       mk_aln true
                         (Z.lor (b2z (bam_is_mapped m1))
                                (Z.shiftl (b2z (bam_is_mapped m2)) 1))
                         (Some (if swap then p2 else p1))
                         (Some (if swap then p1 else p2))),
                      mk_world h2 rest' (sink w))
            else Fatal "assertion failed"
        end
      else if length_check getSeqLength 1 r1
      then Ret ((true,
                 mk_aln false (b2z (bam_is_mapped r1)) (Some p1) (b2 this)),
                mk_world h1 rest (sink w))
      else Fatal "assertion failed"
  end.

(** What [write] with action Compress leaves in a buffer that held [r]:
    the guard of line 83 and [compress]. *)
Definition compacted_form (r : bam1_t) : bam1_t :=
  if 1 <? l_qname r - l_extranul r then default r (compress r) else r.

(** The source, the sink and the number of buffers are the same. *)
Definition same_io (w w' : world) : Prop :=
  source w' = source w /\ sink w' = sink w /\
  length (heap w') = length (heap w).

(** * Properties *)

(** ** Fixed-width integers *)

Lemma u32_small (x : Z) : 0 <= x <= INT_MAX -> u32 x = x.
Proof. unfold u32, INT_MAX. intros H. apply Z.mod_small. lia. Qed.

Lemma i32_small (x : Z) : - INT_MAX - 1 <= x <= INT_MAX -> i32 x = x.
Proof. unfold i32, INT_MAX. intros H. rewrite Z.mod_small; lia. Qed.

Lemma shiftl2 (x : Z) : Z.shiftl x 2 = 4 * x.
Proof. rewrite Z.shiftl_mul_pow2 by lia. change (2 ^ 2) with 4. lia. Qed.

Lemma shiftr1 (x : Z) : Z.shiftr x 1 = x / 2.
Proof. rewrite Z.shiftr_div_pow2 by lia. reflexivity. Qed.

Lemma quot2 (x : Z) : 0 <= x -> Z.quot x 2 = x / 2.
Proof. intros H. apply Z.quot_div_nonneg; lia. Qed.

(** [ceil_half] is the ceiling of the half. *)
Lemma ceil_half_spec (x : Z) : x <= 2 * ceil_half x <= x + 1.
Proof.
  unfold ceil_half.
  pose proof (Z.div_mod (x + 1) 2 ltac:(lia)) as E.
  pose proof (Z.mod_pos_bound (x + 1) 2 ltac:(lia)) as B.
  lia.
Qed.

(** ** Byte buffers *)

Lemma in_buf_true (off n : Z) (d : buffer) :
  in_buf off n d = true <->
  0 <= off /\ 0 <= n /\ off + n <= Z.of_nat (length d).
Proof.
  unfold in_buf. rewrite !andb_true_iff, !Z.leb_le. tauto.
Qed.

Lemma in_buf_intro (off n : Z) (d : buffer) :
  0 <= off -> 0 <= n -> off + n <= Z.of_nat (length d) ->
  in_buf off n d = true.
Proof. intros. apply in_buf_true. auto. Qed.

Lemma lookup_bytes_at (off n : Z) (d : buffer) (i : nat) :
  bytes_at off n d !! i
  = if decide (i < Z.to_nat n)%nat then d !! (Z.to_nat off + i)%nat else None.
Proof.
  unfold bytes_at. destruct (decide _) as [Hi | Hi].
  - rewrite lookup_take_lt by done. apply lookup_drop.
  - apply lookup_take_ge. lia.
Qed.

Lemma length_bytes_at (off n : Z) (d : buffer) :
  0 <= off -> off + n <= Z.of_nat (length d) ->
  length (bytes_at off n d) = Z.to_nat n.
Proof.
  intros Hoff Hfit. unfold bytes_at. rewrite length_take, length_drop. lia.
Qed.

Lemma lookup_overwrite (off : Z) (src : list Z) (d : buffer) (i : nat) :
  (Z.to_nat off + length src <= length d)%nat ->
  overwrite off src d !! i
  = if decide (i < Z.to_nat off)%nat then d !! i
    else if decide (i < Z.to_nat off + length src)%nat
         then src !! (i - Z.to_nat off)%nat
         else d !! i.
Proof.
  intros Hfit. unfold overwrite.
  assert (Htake : length (take (Z.to_nat off) d) = Z.to_nat off)
    by (rewrite length_take; lia).
  destruct (decide (i < Z.to_nat off)%nat) as [Hlt | Hge].
  - rewrite lookup_app_l by (rewrite Htake; lia). by apply lookup_take_lt.
  - rewrite lookup_app_r by (rewrite Htake; lia). rewrite Htake.
    destruct (decide (i < Z.to_nat off + length src)%nat) as [Hin | Hout].
    + by rewrite lookup_app_l by lia.
    + rewrite lookup_app_r by lia. rewrite lookup_drop. f_equal. lia.
Qed.

Lemma length_overwrite (off : Z) (src : list Z) (d : buffer) :
  (Z.to_nat off + length src <= length d)%nat ->
  length (overwrite off src d) = length d.
Proof.
  intros Hfit. unfold overwrite.
  rewrite !length_app, length_take, length_drop. lia.
Qed.

(** Reading back exactly the range that was written. *)
Lemma bytes_at_overwrite_same (off n : Z) (src : list Z) (d : buffer) :
  0 <= off -> length src = Z.to_nat n ->
  (Z.to_nat off + length src <= length d)%nat ->
  bytes_at off n (overwrite off src d) = src.
Proof.
  intros Hoff Hn Hfit. apply list_eq. intros i.
  rewrite lookup_bytes_at, lookup_overwrite by done.
  repeat case_decide; try lia.
  - f_equal. lia.
  - symmetry. apply lookup_ge_None. lia.
Qed.

(** Reading a range that the write did not touch. *)
Lemma bytes_at_overwrite_other (o n off : Z) (src : list Z) (d : buffer) :
  0 <= o -> 0 <= off ->
  (Z.to_nat off + length src <= length d)%nat ->
  o + n <= off \/ off + Z.of_nat (length src) <= o ->
  bytes_at o n (overwrite off src d) = bytes_at o n d.
Proof.
  intros Ho Hoff Hfit Hdisj. apply list_eq. intros i.
  rewrite !lookup_bytes_at, lookup_overwrite by done.
  repeat case_decide; try done; lia.
Qed.

(** Reading from a buffer that was grown. *)
Lemma bytes_at_prefix (o n : Z) (d d' : buffer) :
  d `prefix_of` d' -> 0 <= o -> o + n <= Z.of_nat (length d) ->
  bytes_at o n d' = bytes_at o n d.
Proof.
  intros [k ->] Ho Hfit. apply list_eq. intros i.
  rewrite !lookup_bytes_at. case_decide; [|done].
  apply lookup_app_l. lia.
Qed.

(** ** Header arithmetic of well-formed records *)

Lemma wf_qname_ge4 (b : bam1_t) : wf_record b -> 4 <= l_qname b.
Proof.
  intros [He Hn Ha _ _ _ _ _].
  pose proof (Z.div_mod (l_qname b) 4 ltac:(lia)) as E.
  rewrite Ha in E. lia.
Qed.

Lemma half_nonneg (x : Z) : 0 <= x -> 0 <= (x + 1) / 2.
Proof. intros H. apply Z.div_pos; lia. Qed.

Lemma wf_bounds (b : bam1_t) :
  wf_record b ->
  0 <= 4 * n_cigar b <= INT_MAX /\ 0 <= (l_qseq b + 1) / 2 /\
  0 <= l_data b - 4 * n_cigar b - l_qname b - l_qseq b - (l_qseq b + 1) / 2
       <= INT_MAX.
Proof.
  intros Hwf. pose proof (wf_qname_ge4 b Hwf) as H4.
  destruct Hwf as [He Hn Ha Hc Hq Hl Hi Hcap].
  pose proof (half_nonneg (l_qseq b) Hq) as Hh.
  unfold INT_MAX in *. lia.
Qed.

Lemma n_cigar4 (n : Z) : 0 <= 4 * n <= INT_MAX -> u32 (n * 4) = 4 * n.
Proof. intros H. rewrite Z.mul_comm. by apply u32_small. Qed.

Lemma wf_cigar_bytes (b : bam1_t) :
  wf_record b -> cigar_bytes b = 4 * n_cigar b.
Proof.
  intros Hwf. unfold cigar_bytes. rewrite shiftl2.
  apply u32_small. by apply wf_bounds.
Qed.

Lemma seq_bytes_half (b : bam1_t) : seq_bytes b = (l_qseq b + 1) / 2.
Proof. apply shiftr1. Qed.

Lemma wf_l_aux (b : bam1_t) :
  wf_record b ->
  bam_get_l_aux b
  = l_data b - 4 * n_cigar b - l_qname b - l_qseq b - (l_qseq b + 1) / 2.
Proof.
  intros Hwf. unfold bam_get_l_aux.
  rewrite wf_cigar_bytes, seq_bytes_half by done.
  apply i32_small. pose proof (wf_bounds b Hwf). unfold INT_MAX in *. lia.
Qed.

Lemma wf_l_aux_nonneg (b : bam1_t) : wf_record b -> 0 <= bam_get_l_aux b.
Proof.
  intros Hwf. rewrite wf_l_aux by done. pose proof (wf_bounds b Hwf). lia.
Qed.

(** A well-formed compacted record has the name slot written by
    [compress]: one NUL and three padding NULs. *)
Lemma wf_compacted_name (b : bam1_t) :
  wf_record b -> compacted b -> l_qname b = 4 /\ l_extranul b = 3.
Proof.
  intros Hwf Hc. pose proof (wf_qname_ge4 b Hwf).
  destruct Hwf as [He _ _ _ _ _ _ _].
  unfold compacted, logical_name_length in Hc. lia.
Qed.

(** ** [compress] *)

Lemma compress_spec (b : bam1_t) :
  wf_record b ->
  exists b',
    compress b = Some b' /\
    flag b' = flag b /\ l_qname b' = 4 /\ l_extranul b' = 3 /\
    n_cigar b' = n_cigar b /\ l_qseq b' = 0 /\
    l_data b' = 4 + 4 * n_cigar b + bam_get_l_aux b /\
    length (data b') = length (data b) /\
    bytes_at 0 4 (data b') = [0; 0; 0; 0] /\
    bytes_at 4 (4 * n_cigar b) (data b') = get_cigar b /\
    bytes_at (4 + 4 * n_cigar b) (bam_get_l_aux b) (data b') = get_aux b.
Proof.
  intros Hwf.
  pose proof (wf_qname_ge4 b Hwf) as H4.
  pose proof (wf_bounds b Hwf) as (Hc4 & Hh & Haux).
  pose proof (wf_l_aux b Hwf) as Ha.
  pose proof (wf_cigar_bytes b Hwf) as Hcb.
  pose proof (seq_bytes_half b) as Hsb.
  destruct Hwf as [He Hn Hal Hc Hq Hl Hi Hcap].
  unfold compress, get_cigar, get_aux, aux_off, cigar_off.
  rewrite Hcb, Hsb, n_cigar4 by done.
  set (a := bam_get_l_aux b) in *.
  set (n := n_cigar b) in *. set (L := l_qname b) in *.
  set (q := l_qseq b) in *. set (d := data b) in *.
  unfold memset, memmove. rewrite in_buf_intro by lia. cbn [mbind option_bind].
  set (d1 := overwrite 0 _ d).
  assert (Hd1 : length d1 = length d) by (apply length_overwrite; simpl; lia).
  rewrite !in_buf_intro by lia. cbn [andb mbind option_bind].
  assert (Hs2 : length (bytes_at L (4 * n) d1) = Z.to_nat (4 * n))
    by (apply length_bytes_at; lia).
  set (d2 := overwrite 4 _ d1).
  assert (Hd2 : length d2 = length d)
    by (unfold d2; rewrite length_overwrite; lia).
  rewrite !in_buf_intro by lia. cbn [andb mbind option_bind].
  assert (Hs3 : length (bytes_at (4 * n + L + (q + 1) / 2 + q) a d2) = Z.to_nat a)
    by (apply length_bytes_at; lia).
  set (d3 := overwrite (4 + 4 * n) _ d2).
  assert (Hd3 : length d3 = length d)
    by (unfold d3; rewrite length_overwrite; lia).
  eexists. split; [reflexivity|]. cbn.
  rewrite i32_small by (unfold INT_MAX in *; lia).
  repeat split; try done.
  - unfold d3. rewrite bytes_at_overwrite_other by lia.
    unfold d2. rewrite bytes_at_overwrite_other by lia.
    unfold d1. by rewrite bytes_at_overwrite_same by (simpl; lia).
  - unfold d3. rewrite bytes_at_overwrite_other by lia.
    unfold d2. rewrite bytes_at_overwrite_same by lia.
    unfold d1. by rewrite bytes_at_overwrite_other by (simpl; lia).
  - unfold d3. rewrite bytes_at_overwrite_same by lia.
    unfold d2. rewrite bytes_at_overwrite_other by lia.
    unfold d1. by rewrite bytes_at_overwrite_other by (simpl; lia).
Qed.

Lemma compress_wf (b b' : bam1_t) :
  wf_record b -> compress b = Some b' -> wf_record b' /\ compacted b'.
Proof.
  intros Hwf Hc.
  destruct (compress_spec b Hwf)
    as (r & Hr & Hf & Hn & He & Hnc & Hq & Hl & Hlen & _).
  rewrite Hc in Hr. injection Hr as <-.
  pose proof (wf_bounds b Hwf) as (Hc4 & Hh & Haux).
  pose proof (wf_l_aux b Hwf) as Ha.
  pose proof (wf_qname_ge4 b Hwf) as H4.
  destruct Hwf as [He' Hn' Hal Hc' Hq' Hl' Hi Hcap].
  split.
  - constructor; rewrite ?Hn, ?He, ?Hnc, ?Hq, ?Hl, ?Hlen; try done; try lia.
    change ((0 + 1) / 2) with 0. lia.
  - unfold compacted, logical_name_length. lia.
Qed.

Lemma compress_l_aux (b b' : bam1_t) :
  wf_record b -> compress b = Some b' -> bam_get_l_aux b' = bam_get_l_aux b.
Proof.
  intros Hwf Hc. destruct (compress_wf b b' Hwf Hc) as [Hwf' _].
  destruct (compress_spec b Hwf)
    as (r & Hr & Hf & Hn & He & Hnc & Hq & Hl & Hlen & _).
  rewrite Hc in Hr. injection Hr as <-.
  rewrite (wf_l_aux b') by done. rewrite Hn, Hnc, Hq, Hl.
  change ((0 + 1) / 2) with 0. lia.
Qed.

Lemma compress_segments (b b' : bam1_t) :
  wf_record b -> compress b = Some b' ->
  get_cigar b' = get_cigar b /\ get_aux b' = get_aux b.
Proof.
  intros Hwf Hc.
  pose proof (compress_l_aux b b' Hwf Hc) as Hla.
  destruct (compress_wf b b' Hwf Hc) as [Hwf' _].
  destruct (compress_spec b Hwf)
    as (r & Hr & Hf & Hn & He & Hnc & Hq & Hl & Hlen & _ & Hcig & Haux).
  rewrite Hc in Hr. injection Hr as <-.
  split.
  - rewrite <- Hcig. unfold get_cigar, cigar_off.
    by rewrite wf_cigar_bytes, Hn, Hnc.
  - rewrite <- Haux. unfold get_aux, aux_off.
    rewrite wf_cigar_bytes, seq_bytes_half, Hla, Hn, Hnc, Hq by done.
    change ((0 + 1) / 2) with 0. f_equal. lia.
Qed.

(** ** [decompress] *)

Lemma expand_data_size_spec (grow : buffer -> Z -> buffer) (b : bam1_t) :
  grows grow ->
  let r := expand_data_size grow b in
  flag r = flag b /\ l_qname r = l_qname b /\ l_extranul r = l_extranul b /\
  n_cigar r = n_cigar b /\ l_qseq r = l_qseq b /\ l_data r = l_data b /\
  l_data b <= Z.of_nat (length (data r)) /\ data b `prefix_of` data r.
Proof.
  intros Hg. unfold expand_data_size.
  destruct (Z.ltb_spec (Z.of_nat (length (data b))) (l_data b)) as [Hlt | Hge].
  - destruct (Hg (data b) (l_data b) Hlt) as [Hlen Hpre]. cbn. tauto.
  - cbn. repeat split; try done; lia.
Qed.

Lemma length_pack (l : list Z) : length (pack l) = ((length l + 1) / 2)%nat.
Proof.
  revert l. fix IH 1. intros [|a [|c rest]].
  - reflexivity.
  - reflexivity.
  - cbn [pack length]. rewrite IH.
    replace (S (S (length rest)) + 1)%nat with (length rest + 1 + 1 * 2)%nat
      by lia.
    rewrite Nat.div_add by lia. lia.
Qed.

Lemma length_unpack (s : list Z) (len : nat) : length (unpack s len) = len.
Proof. unfold unpack. by rewrite length_map, length_seq. Qed.

Lemma length_rc_seq (s : list Z) (len : nat) :
  length (rc_seq s len) = ((len + 1) / 2)%nat.
Proof.
  unfold rc_seq.
  by rewrite length_pack, length_map, length_reverse, length_unpack.
Qed.

Lemma half_to_nat (q : Z) :
  0 <= q -> ((Z.to_nat q + 1) / 2)%nat = Z.to_nat ((q + 1) / 2).
Proof.
  intros Hq. apply Nat2Z.inj. rewrite Nat2Z.inj_div.
  rewrite Z2Nat.id by (apply half_nonneg; lia).
  rewrite Nat2Z.inj_add, Z2Nat.id by lia. reflexivity.
Qed.

(** What [decompress] does to a well-formed record, whatever its name
    slot: header, relocated CIGAR and auxiliary bytes, and the donor's
    name, sequence and quality. *)
Lemma decompress_spec (grow : buffer -> Z -> buffer) (b other : bam1_t) :
  grows grow -> wf_record b -> wf_record other ->
  restored_length b other <= INT_MAX ->
  exists r,
    decompress grow b other = Some r /\
    flag r = flag b /\ l_qname r = l_qname other /\
    l_extranul r = l_extranul other /\ n_cigar r = n_cigar b /\
    l_qseq r = l_qseq other /\ l_data r = restored_length b other /\
    l_data r <= Z.of_nat (length (data r)) /\
    get_qname r = get_qname other /\
    get_cigar r = bytes_at 4 (4 * n_cigar b) (data b) /\
    bytes_at (aux_off r) (bam_get_l_aux b) (data r)
    = bytes_at (4 + 4 * n_cigar b) (bam_get_l_aux b) (data b) /\
    (if bool_decide (bam_is_rev b = bam_is_rev other)
     then get_seq r = get_seq other /\ get_qual r = get_qual other
     else get_seq r = rc_seq (get_seq other) (Z.to_nat (l_qseq other)) /\
          get_qual r = reverse (get_qual other)).
Proof.
  intros Hg Hwf Hwfo Hfit. unfold restored_length in *.
  pose proof (wf_qname_ge4 b Hwf) as H4.
  pose proof (wf_bounds b Hwf) as (Hc4 & Hh & Haux).
  pose proof (wf_l_aux b Hwf) as Ha.
  pose proof (wf_qname_ge4 other Hwfo) as H4o.
  pose proof (wf_bounds other Hwfo) as (Hc4o & Hho & Hauxo).
  pose proof (wf_cigar_bytes other Hwfo) as Hcbo.
  pose proof (seq_bytes_half other) as Hsbo.
  destruct Hwf as [He Hn Hal Hc Hq Hl Hi Hcap].
  destruct Hwfo as [Heo Hno Halo Hco Hqo Hlo Hio Hcapo].
  unfold decompress. cbv zeta.
  set (a := bam_get_l_aux b) in *.
  set (b1 := set_l_data _ _).
  pose proof (expand_data_size_spec grow b1 Hg) as Hexp.
  set (b3 := expand_data_size grow b1) in *.
  cbn in Hexp. cbn [set_l_qseq set_l_extranul set_l_qname l_qseq] in Hexp.
  destruct Hexp as (Hf3 & Hn3 & He3 & Hc3 & Hq3 & Hl3 & Hcap3 & Hpre).
  rewrite n_cigar4, quot2 in Hl3, Hcap3 by lia.
  rewrite i32_small in Hl3, Hcap3 by (unfold INT_MAX in *; lia).
  unfold get_qname, get_cigar, get_seq, get_qual, aux_off, qual_off, seq_off,
    cigar_off, qname_off, cigar_bytes, seq_bytes, bam_is_rev.
  rewrite ?shiftl2, ?shiftr1, ?Hf3, ?Hn3, ?Hc3, ?Hq3.
  rewrite ?n_cigar4, ?quot2 by lia.
  rewrite ?u32_small by lia.
  set (n := n_cigar b) in *. set (L := l_qname other) in *.
  set (q := l_qseq other) in *. set (d := data b) in *.
  set (no := n_cigar other) in *. set (do := data other) in *.
  set (d0 := data b3) in *.
  pose proof (prefix_length _ _ Hpre) as Hlen0.
  unfold memmove, memcpy, copy_rc_seq, copy_r_qual.
  rewrite quot2 by lia.
  (* the auxiliary block *)
  rewrite !in_buf_intro by lia. cbn [andb mbind option_bind].
  assert (Hs1 : length (bytes_at (4 + 4 * n) a d0) = Z.to_nat a)
    by (apply length_bytes_at; lia).
  set (d1 := overwrite (4 * n + L + (q + 1) / 2 + q) _ d0).
  assert (Hd1 : length d1 = length d0)
    by (unfold d1; rewrite length_overwrite; lia).
  (* the CIGAR *)
  rewrite !in_buf_intro by lia. cbn [andb mbind option_bind].
  assert (Hs2 : length (bytes_at 4 (4 * n) d1) = Z.to_nat (4 * n))
    by (apply length_bytes_at; lia).
  set (d2 := overwrite L _ d1).
  assert (Hd2 : length d2 = length d0)
    by (unfold d2; rewrite length_overwrite; lia).
  (* the name *)
  rewrite !in_buf_intro by lia. cbn [andb mbind option_bind].
  assert (Hs3 : length (bytes_at 0 L do) = Z.to_nat L)
    by (apply length_bytes_at; lia).
  set (d3 := overwrite 0 _ d2).
  assert (Hd3 : length d3 = length d0)
    by (unfold d3; rewrite length_overwrite; lia).
  assert (Hname : bytes_at 0 L d3 = bytes_at 0 L do)
    by (unfold d3; rewrite bytes_at_overwrite_same; [done|lia..]).
  assert (Hcig : bytes_at L (4 * n) d3 = bytes_at 4 (4 * n) d).
  { unfold d3. rewrite bytes_at_overwrite_other by lia.
    unfold d2. rewrite bytes_at_overwrite_same by lia.
    unfold d1. rewrite bytes_at_overwrite_other by lia.
    apply bytes_at_prefix; [done|lia..]. }
  assert (Hax : bytes_at (4 * n + L + (q + 1) / 2 + q) a d3
                = bytes_at (4 + 4 * n) a d).
  { unfold d3. rewrite bytes_at_overwrite_other by lia.
    unfold d2. rewrite bytes_at_overwrite_other by lia.
    unfold d1. rewrite bytes_at_overwrite_same by lia.
    apply bytes_at_prefix; [done|lia..]. }
  (* sequence and quality *)
  case_bool_decide as Hrev.
  - rewrite !in_buf_intro by lia. cbn [andb mbind option_bind].
    assert (Hs4 : length (bytes_at (4 * no + L) ((q + 1) / 2) do)
                  = Z.to_nat ((q + 1) / 2))
      by (apply length_bytes_at; lia).
    set (d4 := overwrite (4 * n + L) _ d3).
    assert (Hd4 : length d4 = length d0)
      by (unfold d4; rewrite length_overwrite; lia).
    rewrite !in_buf_intro by lia. cbn [andb mbind option_bind].
    assert (Hs5 : length (bytes_at (4 * no + L + (q + 1) / 2) q do)
                  = Z.to_nat q)
      by (apply length_bytes_at; lia).
    set (d5 := overwrite (4 * n + L + (q + 1) / 2) _ d4).
    assert (Hd5 : length d5 = length d0)
      by (unfold d5; rewrite length_overwrite; lia).
    eexists. split; [reflexivity|].
    cbn [set_data flag l_qname l_extranul n_cigar l_qseq l_data data].
    rewrite ?shiftl2, ?shiftr1, ?Hf3, ?Hn3, ?He3, ?Hc3, ?Hq3, ?Hl3.
    rewrite ?u32_small by lia.
    repeat split; try done; try lia.
    + unfold d5. rewrite bytes_at_overwrite_other by lia.
      unfold d4. by rewrite bytes_at_overwrite_other by lia.
    + unfold d5. rewrite bytes_at_overwrite_other by lia.
      unfold d4. by rewrite bytes_at_overwrite_other by lia.
    + unfold d5. rewrite bytes_at_overwrite_other by lia.
      unfold d4. by rewrite bytes_at_overwrite_other by lia.
    + unfold d5. rewrite bytes_at_overwrite_other by lia.
      unfold d4. by rewrite bytes_at_overwrite_same by lia.
    + unfold d5. by rewrite bytes_at_overwrite_same by lia.
  - rewrite !in_buf_intro by lia. cbn [andb mbind option_bind].
    pose proof (half_to_nat q Hqo) as Hhalf.
    assert (Hs4 : length (rc_seq (bytes_at (4 * no + L) ((q + 1) / 2) do)
                                 (Z.to_nat q))
                  = Z.to_nat ((q + 1) / 2))
      by (rewrite length_rc_seq; lia).
    set (d4 := overwrite (4 * n + L) _ d3).
    assert (Hd4 : length d4 = length d0)
      by (unfold d4; rewrite length_overwrite; lia).
    rewrite !in_buf_intro by lia. cbn [andb mbind option_bind].
    assert (Hs5 : length (reverse (bytes_at (4 * no + L + (q + 1) / 2) q do))
                  = Z.to_nat q)
      by (rewrite length_reverse; apply length_bytes_at; lia).
    set (d5 := overwrite (4 * n + L + (q + 1) / 2) _ d4).
    assert (Hd5 : length d5 = length d0)
      by (unfold d5; rewrite length_overwrite; lia).
    eexists. split; [reflexivity|].
    cbn [set_data flag l_qname l_extranul n_cigar l_qseq l_data data].
    rewrite ?shiftl2, ?shiftr1, ?Hf3, ?Hn3, ?He3, ?Hc3, ?Hq3, ?Hl3.
    rewrite ?u32_small by lia.
    repeat split; try done; try lia.
    + unfold d5. rewrite bytes_at_overwrite_other by lia.
      unfold d4. by rewrite bytes_at_overwrite_other by lia.
    + unfold d5. rewrite bytes_at_overwrite_other by lia.
      unfold d4. by rewrite bytes_at_overwrite_other by lia.
    + unfold d5. rewrite bytes_at_overwrite_other by lia.
      unfold d4. by rewrite bytes_at_overwrite_other by lia.
    + unfold d5. rewrite bytes_at_overwrite_other by lia.
      unfold d4. by rewrite bytes_at_overwrite_same by lia.
    + unfold d5. by rewrite bytes_at_overwrite_same by lia.
Qed.

(** ** Packed bases *)

Lemma pack_byte (a c : Z) :
  0 <= a < 16 -> 0 <= c < 16 ->
  Z.land (Z.shiftr (Z.lor (Z.shiftl a 4) c) 4) 15 = a /\
  Z.land (Z.lor (Z.shiftl a 4) c) 15 = c.
Proof.
  intros Ha Hc.
  rewrite <- (Z2Nat.id a), <- (Z2Nat.id c) by lia.
  assert (Hna : (Z.to_nat a < 16)%nat) by lia.
  assert (Hnc : (Z.to_nat c < 16)%nat) by lia.
  revert Hna Hnc. generalize (Z.to_nat a) (Z.to_nat c). intros na nc Hna Hnc.
  do 16 (destruct na as [|na];
         [do 16 (destruct nc as [|nc]; [by vm_compute|]); lia|]).
  lia.
Qed.

Lemma rnt_table_range (c : Z) : 0 <= rnt_table c < 16.
Proof.
  unfold rnt_table, rnt_table_entries. generalize (Z.to_nat c). intros n.
  do 16 (destruct n as [|n]; [cbn; lia|]). destruct n; cbn; lia.
Qed.

Lemma bam_seqi_pack_bounded (n : nat) (l : list Z) (i : nat) (x : Z) :
  (length l <= n)%nat ->
  Forall (fun c => 0 <= c < 16) l -> l !! i = Some x ->
  bam_seqi (pack l) i = x.
Proof.
  revert l i. induction n as [|n IH]; intros [|a [|c rest]] i Hlen Hall Hi;
    try done; cbn [length] in Hlen; try lia.
  - destruct i as [|i]; [|done]. injection Hi as <-.
    apply Forall_cons in Hall as [Ha _].
    destruct (pack_byte a 0 Ha ltac:(lia)) as [Hhi _].
    unfold bam_seqi. cbn [pack lookup list_lookup Nat.div Nat.divmod fst
      default Nat.even]. rewrite Z.lor_0_r in Hhi. exact Hhi.
  - apply Forall_cons in Hall as [Ha Hall].
    apply Forall_cons in Hall as [Hc Hall].
    destruct (pack_byte a c Ha Hc) as [Hhi Hlo].
    destruct i as [|[|i]].
    + injection Hi as <-. exact Hhi.
    + injection Hi as <-. exact Hlo.
    + cbn [lookup list_lookup] in Hi.
      specialize (IH rest i ltac:(lia) Hall Hi).
      unfold bam_seqi in *. cbn [pack].
      replace (S (S i) / 2)%nat with (S (i / 2))%nat.
      * cbn [lookup list_lookup Nat.even]. exact IH.
      * change (S (S i)) with (2 + i)%nat.
        replace (2 + i)%nat with (i + 1 * 2)%nat by lia.
        rewrite Nat.div_add by lia. lia.
Qed.

Lemma bam_seqi_pack (l : list Z) (i : nat) (x : Z) :
  Forall (fun c => 0 <= c < 16) l -> l !! i = Some x ->
  bam_seqi (pack l) i = x.
Proof. apply (bam_seqi_pack_bounded (length l)). lia. Qed.

Lemma unpack_pack (l : list Z) :
  Forall (fun c => 0 <= c < 16) l -> unpack (pack l) (length l) = l.
Proof.
  intros Hall. apply list_eq. intros i. unfold unpack.
  rewrite list_lookup_fmap.
  destruct (l !! i) as [x|] eqn:Hi.
  - rewrite lookup_seq_lt by (by eapply lookup_lt_Some).
    cbn. f_equal. by apply bam_seqi_pack.
  - rewrite lookup_seq_ge; [done|]. by apply lookup_ge_None.
Qed.

(** Base by base, [rc_seq] is the reverse complement. *)
Lemma unpack_rc_seq (s : list Z) (len : nat) :
  unpack (rc_seq s len) len = map rnt_table (reverse (unpack s len)).
Proof.
  unfold rc_seq.
  assert (Hgen : forall l : list Z,
             length l = len -> Forall (fun c => 0 <= c < 16) l ->
             unpack (pack l) len = l)
    by (intros l <- Hall; by apply unpack_pack).
  apply Hgen.
  - by rewrite length_map, length_reverse, length_unpack.
  - apply Forall_forall. intros x Hx.
    apply list_elem_of_fmap in Hx as (y & -> & _). apply rnt_table_range.
Qed.

Lemma bytes_at_within (o n l : Z) (d : buffer) :
  0 <= o -> o + n <= l -> bytes_at o n (bytes_at 0 l d) = bytes_at o n d.
Proof.
  intros Ho Hfit. apply list_eq. intros i.
  rewrite !lookup_bytes_at. repeat case_decide; try done; lia.
Qed.

Lemma payload_copy_bytes (c c' : bam1_t) (o n : Z) :
  payload_copy c c' -> 0 <= o -> o + n <= l_data c ->
  bytes_at o n (data c') = bytes_at o n (data c).
Proof.
  intros (_ & _ & _ & _ & _ & _ & Hbytes) Ho Hfit.
  rewrite <- (bytes_at_within o n (l_data c) (data c')) by done.
  rewrite Hbytes. by apply bytes_at_within.
Qed.

Lemma payload_copy_wf (c c' : bam1_t) :
  wf_record c -> payload_copy c c' -> wf_record c'.
Proof.
  intros [He Hn Hal Hc Hq Hl Hi Hcap] (H1 & H2 & H3 & H4 & H5 & H6 & _).
  constructor; rewrite ?H1, ?H2, ?H3, ?H4, ?H5; done.
Qed.

Lemma payload_copy_l_aux (c c' : bam1_t) :
  payload_copy c c' -> bam_get_l_aux c' = bam_get_l_aux c.
Proof.
  intros (H1 & H2 & H3 & H4 & H5 & _).
  unfold bam_get_l_aux, cigar_bytes, seq_bytes.
  by rewrite H1, H3, H4, H5.
Qed.

(** ** The complement table *)

(** C4: every packed code between 0 and 15 that has a defined complement is
    sent back to itself by two applications of the complement table. *)
Theorem rnt_table_involution (c : Z) :
  0 <= c < 16 -> has_complement c -> rnt_table (rnt_table c) = c.
Proof.
  intros Hc. unfold has_complement.
  rewrite <- (Z2Nat.id c) by lia.
  assert (Hn : (Z.to_nat c < 16)%nat) by lia.
  revert Hn. generalize (Z.to_nat c). intros n Hn.
  do 16 (destruct n as [|n]; [by vm_compute|]). lia.
Qed.

(** The codes 1, 2, 4, 8 and 15 have a defined complement and are fixed by
    the double complement. *)
Lemma rnt_table_involution_witness :
  Forall (fun c => (0 <= c < 16 /\ has_complement c)
                   /\ rnt_table (rnt_table c) = c) [1; 2; 4; 8; 15].
Proof.
  repeat (constructor;
          [split; [split; [lia | by vm_compute]
                  | apply rnt_table_involution; [lia | by vm_compute]] |]).
  constructor.
Defined.

(** ** The codec on well-formed records *)

Lemma sample_record_wf (fl : Z) : wf_record (sample_record fl).
Proof. constructor; repeat split; by vm_compute. Defined.

Lemma sample_record8_wf (fl : Z) : wf_record (sample_record8 fl).
Proof. constructor; repeat split; by vm_compute. Defined.

Lemma grow_zeroed_grows : grows grow_zeroed.
Proof.
  intros d n Hlt. unfold grow_zeroed. split.
  - rewrite length_app, length_replicate. lia.
  - by apply prefix_app_r.
Defined.

(** C5: compressing a well-formed uncompacted record succeeds and leaves
    name length 4, padding-null count 3, sequence length 0 and payload
    length 4 + 4 * cigar_op_count + aux_block_length; the CIGAR bytes and
    the auxiliary bytes are those from before the call, and the record is
    compacted afterwards. *)
Theorem compress_uncompacted (b : bam1_t) :
  wf_record b -> uncompacted b ->
  exists b',
    compress b = Some b' /\
    l_qname b' = 4 /\ l_extranul b' = 3 /\ l_qseq b' = 0 /\
    l_data b' = 4 + 4 * n_cigar b + bam_get_l_aux b /\
    n_cigar b' = n_cigar b /\ bam_get_l_aux b' = bam_get_l_aux b /\
    get_cigar b' = get_cigar b /\ get_aux b' = get_aux b /\
    compacted b'.
Proof.
  intros Hwf _.
  destruct (compress_spec b Hwf)
    as (b' & Hc & Hf & Hn & He & Hnc & Hq & Hl & _).
  destruct (compress_segments b b' Hwf Hc) as [Hcig Haux].
  destruct (compress_wf b b' Hwf Hc) as [_ Hcomp].
  pose proof (compress_l_aux b b' Hwf Hc) as Hla.
  exists b'. tauto.
Qed.

Lemma compress_uncompacted_witness :
  (wf_record (sample_record8 0) /\ uncompacted (sample_record8 0)) /\
  exists b',
    compress (sample_record8 0) = Some b' /\
    l_qname b' = 4 /\ l_extranul b' = 3 /\ l_qseq b' = 0 /\
    l_data b' = 4 + 4 * 1 + 3 /\
    get_cigar b' = [64; 0; 0; 0] /\ get_aux b' = [88; 89; 90] /\
    compacted b'.
Proof.
  assert (Hu : uncompacted (sample_record8 0))
    by (unfold uncompacted, logical_name_length; cbn; lia).
  split; [split; [apply sample_record8_wf | exact Hu]|].
  destruct (compress_uncompacted (sample_record8 0)
              (sample_record8_wf 0) Hu)
    as (b' & Hc & Hn & He & Hq & Hl & Hnc & Hla & Hcig & Haux & Hcomp).
  exists b'. rewrite Hcig, Haux. repeat split; done.
Defined.

Lemma sample_compacted_wf (fl : Z) : wf_record (sample_compacted fl).
Proof. constructor; repeat split; by vm_compute. Defined.

(** *** Restoring from a donor

    The allocator behind [expand_data_size] is any function that grows a
    buffer and keeps its content. *)
Section Restore.

Variable grow : buffer -> Z -> buffer.
Hypothesis grow_ok : grows grow.

(** C2: let [c] be the result of compressing a well-formed uncompacted
    record [R], and [c'] a copy of [c] in a buffer of its own whose
    reverse-strand flag is that of [R].  Decompressing [c'] with donor [R]
    succeeds and gives back the name bytes, the packed sequence bytes and the
    quality bytes of [R] (and with them its CIGAR, auxiliary block and
    payload length). *)
Theorem round_trip_same_strand (R c c' : bam1_t) :
  wf_record R -> uncompacted R ->
  compress R = Some c -> payload_copy c c' ->
  bam_is_rev c' = bam_is_rev R ->
  exists r,
    decompress grow c' R = Some r /\
    get_qname r = get_qname R /\ get_seq r = get_seq R /\
    get_qual r = get_qual R /\
    get_cigar r = get_cigar R /\ get_aux r = get_aux R /\
    l_data r = l_data R.
Proof.
  intros Hwf _ Hc Hcopy Hrev.
  destruct (compress_spec R Hwf)
    as (c0 & Hc0 & Hf & Hn & He & Hnc & Hq & Hl & Hlen & _ & Hcig & Haux).
  rewrite Hc in Hc0. injection Hc0 as <-.
  destruct (compress_wf R c Hwf Hc) as [Hwfc _].
  pose proof (compress_l_aux R c Hwf Hc) as Hla.
  pose proof (payload_copy_wf c c' Hwfc Hcopy) as Hwfc'.
  pose proof (payload_copy_l_aux c c' Hcopy) as Hla'.
  pose proof (wf_bounds R Hwf) as (Hc4 & Hh & Hauxb).
  pose proof (wf_l_aux R Hwf) as Ha.
  pose proof (wf_l_aux_nonneg R Hwf) as Ha0.
  assert (Hnc' : n_cigar c' = n_cigar R) by (destruct Hcopy; intuition lia).
  assert (Hfit : restored_length c' R = l_data R)
    by (unfold restored_length; rewrite Hla', Hla, Hnc'; lia).
  destruct (decompress_spec grow c' R grow_ok Hwfc' Hwf)
    as (r & Hr & Hfr & Hnr & Her & Hncr & Hqr & Hlr & Hcapr
        & Hname & Hcigr & Hauxr & Hsq).
  { rewrite Hfit. by destruct Hwf. }
  rewrite bool_decide_eq_true_2 in Hsq by done. destruct Hsq as [Hseq Hqual].
  exists r. repeat split; try done.
  - rewrite Hcigr, Hnc', <- Hcig.
    apply payload_copy_bytes; [done|lia..].
  - unfold get_aux at 1.
    assert (Hlar : bam_get_l_aux r = bam_get_l_aux c').
    { unfold bam_get_l_aux at 1. unfold cigar_bytes, seq_bytes.
      rewrite shiftl2, shiftr1, Hncr, Hnr, Hqr, Hlr, Hfit, Hnc'.
      rewrite u32_small by lia. rewrite Hla', Hla, Ha.
      apply i32_small. unfold INT_MAX in *. lia. }
    rewrite Hlar, Hauxr, Hla', Hla, Hnc', <- Haux.
    apply payload_copy_bytes; [done|lia..].
  - by rewrite Hlr.
Qed.

(** C3: decompressing a well-formed compacted record from a well-formed
    uncompacted donor succeeds.  When the two reverse-strand flags differ,
    the sequence written is the reverse complement of the donor's packed
    sequence (base [i] is the complement-table image of the donor's base
    [len - 1 - i]) and the quality written is the donor's quality in reverse
    order; when the flags are equal, the donor's packed sequence and quality
    bytes are copied as they are. *)
Theorem decompress_strand (c o : bam1_t) :
  wf_record c -> compacted c ->
  wf_record o -> uncompacted o ->
  restored_length c o <= INT_MAX ->
  exists r,
    decompress grow c o = Some r /\
    (bam_is_rev c <> bam_is_rev o ->
       get_seq r = rc_seq (get_seq o) (Z.to_nat (l_qseq o)) /\
       unpack (get_seq r) (Z.to_nat (l_qseq o))
       = map rnt_table (reverse (unpack (get_seq o) (Z.to_nat (l_qseq o)))) /\
       get_qual r = reverse (get_qual o)) /\
    (bam_is_rev c = bam_is_rev o ->
       get_seq r = get_seq o /\ get_qual r = get_qual o).
Proof.
  intros Hwf _ Hwfo _ Hfit.
  destruct (decompress_spec grow c o grow_ok Hwf Hwfo Hfit)
    as (r & Hr & _ & _ & _ & _ & _ & _ & _ & _ & _ & _ & Hsq).
  exists r. split; [done|]. split; intros Hrev.
  - rewrite bool_decide_eq_false_2 in Hsq by done.
    destruct Hsq as [Hseq Hqual]. repeat split; try done.
    rewrite Hseq. apply unpack_rc_seq.
  - rewrite bool_decide_eq_true_2 in Hsq by done. done.
Qed.

(** C9: for a well-formed record [b] whose auxiliary block has
    [bam_get_l_aux b] bytes (and then satisfies the layout invariant),
    [compress] returns a record that satisfies the layout invariant with the
    same auxiliary length, and so does [decompress] from a well-formed donor
    when the restored payload length fits an [int]. *)
Theorem codec_layout_invariant (b other : bam1_t) :
  wf_record b -> wf_record other ->
  restored_length b other <= INT_MAX ->
  layout_invariant b (bam_get_l_aux b) /\
  (exists b', compress b = Some b' /\
              layout_invariant b' (bam_get_l_aux b) /\
              bam_get_l_aux b' = bam_get_l_aux b) /\
  (exists r, decompress grow b other = Some r /\
             layout_invariant r (bam_get_l_aux b) /\
             bam_get_l_aux r = bam_get_l_aux b).
Proof.
  intros Hwf Hwfo Hfit.
  pose proof (wf_l_aux b Hwf) as Ha.
  pose proof (wf_bounds b Hwf) as (Hc4 & Hh & Hauxb).
  pose proof (wf_bounds other Hwfo) as (Hc4o & Hho & Hauxo).
  pose proof (wf_qname_ge4 other Hwfo) as H4o.
  unfold layout_invariant, ceil_half. split; [lia|]. split.
  - destruct (compress_spec b Hwf)
      as (b' & Hc & _ & Hn & _ & Hnc & Hq & Hl & _).
    exists b'. split; [done|]. split.
    + rewrite Hn, Hnc, Hq, Hl. change ((0 + 1) / 2) with 0. lia.
    + by apply compress_l_aux.
  - destruct (decompress_spec grow b other grow_ok Hwf Hwfo Hfit)
      as (r & Hr & _ & Hn & _ & Hnc & Hq & Hl & _).
    exists r. split; [done|]. unfold restored_length in *. split.
    + rewrite Hn, Hnc, Hq, Hl. lia.
    + unfold bam_get_l_aux at 1. unfold cigar_bytes, seq_bytes.
      rewrite shiftl2, shiftr1, Hn, Hnc, Hq, Hl.
      rewrite u32_small by lia.
      pose proof (wf_l_aux_nonneg b Hwf).
      destruct Hwfo. rewrite i32_small; unfold INT_MAX in *; lia.
Qed.

End Restore.

Lemma round_trip_same_strand_witness :
  (grows grow_zeroed /\ wf_record (sample_record8 16) /\
   uncompacted (sample_record8 16) /\
   compress (sample_record8 16) = Some (sample_compressed8 16) /\
   payload_copy (sample_compressed8 16) (sample_compacted 17) /\
   bam_is_rev (sample_compacted 17) = bam_is_rev (sample_record8 16)) /\
  exists r,
    decompress grow_zeroed (sample_compacted 17) (sample_record8 16) = Some r /\
    get_qname r = get_qname (sample_record8 16) /\
    get_seq r = get_seq (sample_record8 16) /\
    get_qual r = get_qual (sample_record8 16).
Proof.
  assert (Hu : uncompacted (sample_record8 16))
    by (unfold uncompacted, logical_name_length; cbn; lia).
  assert (Hc : compress (sample_record8 16) = Some (sample_compressed8 16))
    by reflexivity.
  assert (Hcopy : payload_copy (sample_compressed8 16) (sample_compacted 17))
    by (repeat split; cbn; lia).
  assert (Hrev : bam_is_rev (sample_compacted 17)
                 = bam_is_rev (sample_record8 16)) by reflexivity.
  split; [pose proof grow_zeroed_grows; pose proof (sample_record8_wf 16);
          tauto|].
  destruct (round_trip_same_strand grow_zeroed grow_zeroed_grows
              (sample_record8 16) (sample_compressed8 16)
              (sample_compacted 17) (sample_record8_wf 16) Hu Hc Hcopy Hrev)
    as (r & Hr & Hname & Hseq & Hqual & _).
  exists r. tauto.
Defined.

(** The scenario of the spec: donor bases A C G T with qualities
    10 20 30 40 on the forward strand, compacted record on the reverse
    strand. *)
Lemma decompress_strand_witness :
  (grows grow_zeroed /\ wf_record (sample_compacted 16) /\
   compacted (sample_compacted 16) /\ wf_record (sample_record 0) /\
   uncompacted (sample_record 0) /\
   restored_length (sample_compacted 16) (sample_record 0) <= INT_MAX /\
   bam_is_rev (sample_compacted 16) <> bam_is_rev (sample_record 0)) /\
  exists r,
    decompress grow_zeroed (sample_compacted 16) (sample_record 0) = Some r /\
    unpack (get_seq r) 4 = [1; 2; 4; 8] /\
    get_qual r = [40; 30; 20; 10].
Proof.
  assert (Hc : compacted (sample_compacted 16)) by reflexivity.
  assert (Hu : uncompacted (sample_record 0))
    by (unfold uncompacted, logical_name_length; cbn; lia).
  assert (Hfit : restored_length (sample_compacted 16) (sample_record 0)
                 <= INT_MAX) by (by vm_compute).
  assert (Hrev : bam_is_rev (sample_compacted 16)
                 <> bam_is_rev (sample_record 0)) by (by vm_compute).
  split.
  { pose proof grow_zeroed_grows. pose proof (sample_compacted_wf 16).
    pose proof (sample_record_wf 0). tauto. }
  destruct (decompress_strand grow_zeroed grow_zeroed_grows
              (sample_compacted 16) (sample_record 0)
              (sample_compacted_wf 16) Hc (sample_record_wf 0) Hu Hfit)
    as (r & Hr & Hdiff & _).
  destruct (Hdiff Hrev) as (_ & Hseq & Hqual).
  exists r. split; [exact Hr|]. split; [exact Hseq | exact Hqual].
Defined.

Lemma codec_layout_invariant_witness :
  (grows grow_zeroed /\ wf_record (sample_compacted 16) /\
   wf_record (sample_record8 0) /\
   restored_length (sample_compacted 16) (sample_record8 0) <= INT_MAX) /\
  layout_invariant (sample_compacted 16) 3 /\
  (exists b', compress (sample_compacted 16) = Some b' /\
              layout_invariant b' 3) /\
  (exists r, decompress grow_zeroed (sample_compacted 16) (sample_record8 0)
             = Some r /\ layout_invariant r 3).
Proof.
  assert (Hfit : restored_length (sample_compacted 16) (sample_record8 0)
                 <= INT_MAX) by (by vm_compute).
  split.
  { pose proof grow_zeroed_grows. pose proof (sample_compacted_wf 16).
    pose proof (sample_record8_wf 0). tauto. }
  destruct (codec_layout_invariant grow_zeroed grow_zeroed_grows
              (sample_compacted 16) (sample_record8 0)
              (sample_compacted_wf 16) (sample_record8_wf 0) Hfit)
    as (Hb & (b' & Hc & Hlb' & _) & (r & Hr & Hlr & _)).
  change (bam_get_l_aux (sample_compacted 16)) with 3 in *.
  split; [exact Hb|]. split; [by exists b' | by exists r].
Defined.

(** ** Running the reader and the writer *)

Lemma bind_Ret {A B} (m : M A) (f : A -> M B) (w w' : world) (a : A) :
  m w = Ret (a, w') -> (m ≫= f) w = f a w'.
Proof. intros E. unfold mbind, M_mbind, M_bind. by rewrite E. Qed.

Lemma bind_Fatal {A B} (m : M A) (f : A -> M B) (w : world) (msg : string) :
  m w = Fatal msg -> (m ≫= f) w = Fatal msg.
Proof. intros E. unfold mbind, M_mbind, M_bind. by rewrite E. Qed.

Lemma bind_Ret_inv {A B} (m : M A) (f : A -> M B) (w : world)
  (x : B * world) :
  (m ≫= f) w = Ret x -> exists a w', m w = Ret (a, w') /\ f a w' = Ret x.
Proof.
  unfold mbind, M_mbind, M_bind.
  destruct (m w) as [[a w']| |]; [|done..]. intros E. by exists a, w'.
Qed.

Lemma mret_Ret_inv {A} (a x : A) (w w' : world) :
  (mret a : M A) w = Ret (x, w') -> x = a /\ w' = w.
Proof. intros E. by injection E as <- <-. Qed.

Lemma or_init_eq (p : option nat) (h src snk : list bam1_t) :
  or_init p (mk_world h src snk)
  = Ret (buffer_of p h, mk_world (heap_with p h) src snk).
Proof. by destruct p. Qed.

Lemma buffer_of_valid (p : option nat) (h : list bam1_t) :
  valid_ptr p h -> (buffer_of p h < length (heap_with p h))%nat.
Proof.
  intros Hv. destruct p as [a|]; cbn.
  - by apply Hv.
  - rewrite length_app. cbn. lia.
Qed.

Lemma length_heap_with (p : option nat) (h : list bam1_t) :
  (length h <= length (heap_with p h))%nat.
Proof. destruct p; cbn; rewrite ?length_app; lia. Qed.

Lemma deref_eq (p : nat) (r : bam1_t) (w : world) :
  heap w !! p = Some r -> deref p w = Ret (r, w).
Proof. intros E. unfold deref. by rewrite E. Qed.

Lemma deref_inv (p : nat) (r : bam1_t) (w w' : world) :
  deref p w = Ret (r, w') -> w' = w /\ heap w !! p = Some r.
Proof.
  unfold deref. destruct (heap w !! p); [|done]. intros E.
  by injection E as <- <-.
Qed.

Lemma nonnull_inv (p : option nat) (a : nat) (w w' : world) :
  nonnull p w = Ret (a, w') -> p = Some a /\ w' = w.
Proof. destruct p; [|done]. intros E. by injection E as <- <-. Qed.

Lemma parser_read_cons (p : nat) (h src snk : list bam1_t) (r : bam1_t) :
  (p < length h)%nat ->
  parser_read p (mk_world h (r :: src) snk)
  = Ret (true, mk_world (<[p := r]> h) src snk).
Proof. intros Hp. unfold parser_read. cbn. by rewrite bool_decide_eq_true_2. Qed.

Lemma parser_read_inv (p : nat) (ok : bool) (w w' : world) :
  parser_read p w = Ret (ok, w') ->
  sink w' = sink w /\
  ((ok = false /\ w' = w) \/
   (ok = true /\ exists r, heap w' = <[p := r]> (heap w)
                           /\ (p < length (heap w))%nat)).
Proof.
  unfold parser_read. destruct (source w) as [|r rest].
  - intros E. injection E as <- <-. split; [done|]. by left.
  - case_bool_decide; [|done]. intros E. injection E as <- <-.
    split; [done|]. right. split; [done|]. by exists r.
Qed.

Lemma general_assert_inv (c : bool) (msg : string) (u : unit) (w w' : world) :
  general_assert c msg w = Ret (u, w') -> c = true /\ w' = w.
Proof. destruct c; [|done]. intros E. by injection E as _ <-. Qed.

Lemma assert_inv (c : bool) (u : unit) (w w' : world) :
  assert c w = Ret (u, w') -> c = true /\ w' = w.
Proof. destruct c; [|done]. intros E. by injection E as _ <-. Qed.

(** ** [read] *)

Ltac unfold_M :=
  repeat progress
    unfold mbind, M_mbind, M_bind, mret, M_mret, M_ret, deref, nonnull,
      assert, general_assert, abort, undefined.

Ltac eval_bits :=
  repeat match goal with
         | |- context [Z.land ?x ?k =? 0] =>
             let v := eval vm_compute in (Z.land x k =? 0) in
             change (Z.land x k =? 0) with v
         end.

Ltac eval_test :=
  match goal with
  | |- context [?x =? ?y] => destruct (x =? y)
  end.

Lemma read_status_paired (getSeqLength : Z -> Z) (p q : nat) (w : world)
  (m1 m2 : bam1_t) :
  heap w !! p = Some m1 -> heap w !! q = Some m2 ->
  read_status getSeqLength true p (Some q) w
  = if length_check getSeqLength 1 m1 && length_check getSeqLength 2 m2
    then Ret ((true,
               mk_aln true
                 (Z.lor (b2z (bam_is_mapped m1))
                        (Z.shiftl (b2z (bam_is_mapped m2)) 1))
                 (Some p) (Some q)), w)
    else Fatal "assertion failed".
Proof.
  intros H1 H2. unfold read_status, length_check, resolved_length. unfold_M.
  rewrite H1. cbn beta iota. rewrite !H2. cbn beta iota.
  destruct (bam_is_mapped m1), (bam_is_mapped m2);
    repeat first [ progress eval_bits | progress cbn beta iota
                 | progress cbn [orb andb negb] | rewrite H2 | eval_test ];
    reflexivity.
Qed.

Lemma read_status_unpaired (getSeqLength : Z -> Z) (p : nat)
  (q : option nat) (w : world) (m1 : bam1_t) :
  heap w !! p = Some m1 ->
  read_status getSeqLength false p q w
  = if length_check getSeqLength 1 m1
    then Ret ((true, mk_aln false (b2z (bam_is_mapped m1)) (Some p) q), w)
    else Fatal "assertion failed".
Proof.
  intros H1. unfold read_status, length_check, resolved_length. unfold_M.
  rewrite H1. cbn beta iota.
  destruct (bam_is_mapped m1);
    repeat first [ progress eval_bits | progress cbn beta iota
                 | progress cbn [orb andb negb] | eval_test ];
    reflexivity.
Qed.

(** A successful status computation read its mates from the store it
    returns. *)
Lemma read_status_inv (getSeqLength : Z -> Z) (paired : bool) (p : nat)
  (q : option nat) (w w' : world) (ok : bool) (t : BamAlignment) :
  read_status getSeqLength paired p q w = Ret ((ok, t), w') ->
  w' = w /\ exists m1, heap w !! p = Some m1 /\
  (paired = true -> exists a m2, q = Some a /\ heap w !! a = Some m2).
Proof.
  intros H. pose proof H as H0. unfold read_status in H.
  apply bind_Ret_inv in H as (m1 & w1 & E1 & H).
  apply deref_inv in E1 as [-> Hm1].
  destruct paired.
  - apply bind_Ret_inv in H as (al & w2 & E2 & _).
    apply bind_Ret_inv in E2 as (a & w3 & E3 & E2).
    apply nonnull_inv in E3 as [-> ->].
    apply bind_Ret_inv in E2 as (m2 & w4 & E4 & _).
    apply deref_inv in E4 as [-> Hm2].
    rewrite (read_status_paired _ _ _ _ _ _ Hm1 Hm2) in H0.
    destruct (_ && _); [|done]. injection H0 as _ _ <-.
    split; [done|]. exists m1. split; [done|]. intros _. by exists a, m2.
  - rewrite (read_status_unpaired _ _ _ _ _ Hm1) in H0.
    destruct (length_check _ _ _); [|done]. injection H0 as _ _ <-.
    split; [done|]. exists m1. split; done.
Qed.

Lemma heap_with_lookup (q : option nat) (h : list bam1_t) (p : nat) :
  (p < length h)%nat -> heap_with q h !! p = h !! p.
Proof. intros Hp. destruct q; cbn; [done|]. by apply lookup_app_l. Qed.

Lemma buffer_of_ne (q : option nat) (h : list bam1_t) (p : nat) :
  (p < length h)%nat -> q <> Some p -> buffer_of q h <> p.
Proof. intros Hp Hq. destruct q as [c|]; cbn; [congruence|lia]. Qed.

Lemma read_second_mate_nil (this : BamAlignment) (p1 : nat)
  (h snk : list bam1_t) :
  read_second_mate this p1 (mk_world h [] snk) = Fatal msg_other_mate.
Proof.
  unfold read_second_mate.
  erewrite bind_Ret by apply or_init_eq. cbn beta.
  reflexivity.
Qed.

Lemma read_second_mate_cons (this : BamAlignment) (p1 : nat)
  (h src snk : list bam1_t) (r1 r2 : bam1_t) :
  (p1 < length h)%nat -> h !! p1 = Some r1 ->
  valid_ptr (b2 this) h -> b2 this <> Some p1 ->
  let p2 := buffer_of (b2 this) h in
  let h' := <[p2 := r2]> (heap_with (b2 this) h) in
  (h' !! p1 = Some r1 /\ h' !! p2 = Some r2) /\
  read_second_mate this p1 (mk_world h (r2 :: src) snk)
  = if bam_is_paired r2 then
      if mates_complementary r1 r2
      then Ret ((if bam_is_read2 r1 then (p2, Some p1) else (p1, Some p2)),
                mk_world h' src snk)
      else Fatal msg_both_mates
    else Fatal msg_other_mate.
Proof.
  intros Hp1 Hr1 Hv Hne p2 h'.
  pose proof (buffer_of_valid _ _ Hv) as Hp2. fold p2 in Hp2.
  pose proof (buffer_of_ne _ _ _ Hp1 Hne) as Hp12. fold p2 in Hp12.
  assert (L1 : h' !! p1 = Some r1).
  { unfold h'. rewrite list_lookup_insert_ne by done.
    by rewrite heap_with_lookup. }
  assert (L2 : h' !! p2 = Some r2)
    by (unfold h'; by apply list_lookup_insert_eq).
  split; [done|].
  unfold read_second_mate.
  erewrite bind_Ret by apply or_init_eq. cbn beta.
  erewrite bind_Ret by (by apply parser_read_cons). cbn beta iota.
  fold p2 h'.
  erewrite bind_Ret by (erewrite bind_Ret by (by apply deref_eq); reflexivity).
  destruct (bam_is_paired r2); [|reflexivity].
  erewrite bind_Ret by reflexivity.
  erewrite bind_Ret by (by apply deref_eq).
  erewrite bind_Ret by (by apply deref_eq).
  fold (mates_complementary r1 r2).
  destruct (mates_complementary r1 r2); [|reflexivity].
  erewrite bind_Ret by reflexivity.
  by destruct (bam_is_read2 r1).
Qed.

Lemma object_ok_first (this : BamAlignment) (h : list bam1_t) (r1 : bam1_t) :
  object_ok this h ->
  let p1 := buffer_of (b this) h in
  let h1 := <[p1 := r1]> (heap_with (b this) h) in
  (p1 < length (heap_with (b this) h))%nat /\
  (p1 < length h1)%nat /\ h1 !! p1 = Some r1 /\
  valid_ptr (b2 this) h1 /\ b2 this <> Some p1.
Proof.
  intros (Hv1 & Hv2 & Hne) p1 h1.
  pose proof (buffer_of_valid _ _ Hv1) as Hp1. fold p1 in Hp1.
  pose proof (length_heap_with (b this) h) as Hlen.
  split; [done|]. unfold h1. rewrite length_insert.
  split; [done|]. split; [by apply list_lookup_insert_eq|]. split.
  - intros a Ha. specialize (Hv2 a Ha). rewrite length_insert. lia.
  - unfold p1. destruct (b this) as [a|] eqn:Hb; cbn.
    + by apply Hne.
    + intros Hb2. specialize (Hv2 _ Hb2). lia.
Qed.

(** The first steps of [read] on a source that is not exhausted. *)
Lemma read_cons (getSeqLength : Z -> Z) (this : BamAlignment)
  (h src snk : list bam1_t) (r1 : bam1_t) :
  object_ok this h ->
  let p1 := buffer_of (b this) h in
  let h1 := <[p1 := r1]> (heap_with (b this) h) in
  read getSeqLength this (mk_world h (r1 :: src) snk)
  = ((if bam_is_paired r1 then read_second_mate this p1
      else mret (p1, b2 this))
     ≫= fun ptrs : nat * option nat =>
          read_status getSeqLength (bam_is_paired r1) ptrs.1 ptrs.2)
      (mk_world h1 src snk).
Proof.
  intros Hok p1 h1.
  destruct (object_ok_first this h r1 Hok) as (Hp1 & _ & Hl1 & _).
  unfold read.
  erewrite bind_Ret by apply or_init_eq. cbn beta.
  erewrite bind_Ret by (by apply parser_read_cons). cbn [negb].
  erewrite bind_Ret by (by apply deref_eq). reflexivity.
Qed.

Lemma mate_bits_read2 (r : bam1_t) :
  Z.land (flag r) 192 = 128 -> bam_is_read2 r = true.
Proof.
  intros H. unfold bam_is_read2, BAM_FREAD2.
  change 128 with (Z.land 192 128) at 1.
  by rewrite Z.land_assoc, H.
Qed.

Lemma mate_bits_read1 (r : bam1_t) :
  Z.land (flag r) 192 = 64 -> bam_is_read1 r = true.
Proof.
  intros H. unfold bam_is_read1, BAM_FREAD1.
  change 64 with (Z.land 192 64) at 1.
  by rewrite Z.land_assoc, H.
Qed.

Lemma fresh_object_ok (h : list bam1_t) : object_ok fresh_object h.
Proof. repeat split; intros a Ha; discriminate Ha. Defined.

(** C6: when the first record read is flagged paired and second-in-pair and
    the next record is flagged first-in-pair, the unit returned by [read]
    has the first-in-pair record in [b] and the second-in-pair record in
    [b2]: [b] is the buffer the second record was read into, [b2] the
    buffer the first record was read into, and the store is the one left
    by the two reads of the source, so the pointers are exchanged and no
    record is copied.  The unit is returned when the second record is
    flagged paired and the two length checks pass; otherwise the call is a
    fatal defect. *)
Theorem read_mate_normalization (getSeqLength : Z -> Z) (this : BamAlignment)
  (h rest snk : list bam1_t) (r1 r2 : bam1_t) :
  object_ok this h -> bam_is_paired r1 = true ->
  Z.land (flag r1) 192 = 128 -> Z.land (flag r2) 192 = 64 ->
  let p1 := buffer_of (b this) h in
  let h1 := <[p1 := r1]> (heap_with (b this) h) in
  let p2 := buffer_of (b2 this) h1 in
  let h2 := <[p2 := r2]> (heap_with (b2 this) h1) in
  let unit :=
    mk_aln true
      (Z.lor (b2z (bam_is_mapped r2)) (Z.shiftl (b2z (bam_is_mapped r1)) 1))
      (Some p2) (Some p1) in
  (h2 !! p2 = Some r2 /\ bam_is_read1 r2 = true) /\
  (h2 !! p1 = Some r1 /\ bam_is_read2 r1 = true) /\
  read getSeqLength this (mk_world h (r1 :: r2 :: rest) snk)
  = if bam_is_paired r2 then
      if length_check getSeqLength 1 r2 && length_check getSeqLength 2 r1
      then Ret ((true, unit), mk_world h2 rest snk)
      else Fatal "assertion failed"
    else Fatal msg_other_mate.
Proof.
  intros Hok Hpaired Hf1 Hf2 p1 h1 p2 h2 unit.
  destruct (object_ok_first this h r1 Hok) as (_ & Hp1 & Hl1 & Hv2 & Hne).
  fold p1 h1 in Hp1, Hl1, Hv2, Hne.
  destruct (read_second_mate_cons this p1 h1 rest snk r1 r2 Hp1 Hl1 Hv2 Hne)
    as ((L1 & L2) & Esecond).
  fold p2 h2 in L1, L2, Esecond.
  pose proof (mate_bits_read2 r1 Hf1) as Hread2.
  pose proof (mate_bits_read1 r2 Hf2) as Hread1.
  split; [done|]. split; [done|].
  rewrite read_cons by done. fold p1 h1. rewrite Hpaired.
  assert (Hcompl : mates_complementary r1 r2 = true).
  { unfold mates_complementary. rewrite Hf1, Hf2. reflexivity. }
  rewrite Hcompl, Hread2 in Esecond.
  destruct (bam_is_paired r2).
  - erewrite bind_Ret by exact Esecond. cbn [fst snd].
    by rewrite (read_status_paired getSeqLength p2 p1
                  (mk_world h2 rest snk) r2 r1 L2 L1).
  - by erewrite bind_Fatal by exact Esecond.
Qed.

Lemma read_mate_normalization_witness :
  (object_ok fresh_object [] /\ bam_is_paired (sample_record 129) = true /\
   Z.land (flag (sample_record 129)) 192 = 128 /\
   Z.land (flag (sample_record8 65)) 192 = 64) /\
  read (fun _ => 4) fresh_object
    (mk_world [] [sample_record 129; sample_record8 65] [])
  = Ret ((true, mk_aln true 3 (Some 1%nat) (Some 0%nat)),
         mk_world [sample_record 129; sample_record8 65] [] []).
Proof.
  split; [split; [apply fresh_object_ok | by repeat split]|].
  destruct (read_mate_normalization (fun _ => 4) fresh_object [] [] []
              (sample_record 129) (sample_record8 65)
              (fresh_object_ok []) eq_refl eq_refl eq_refl)
    as (_ & _ & E).
  rewrite E. reflexivity.
Defined.

(** C7: when the first record read is flagged paired, [read] is a fatal
    defect (the process is aborted, nothing is returned) if the source has
    no second record, or if the mate flags of the two records are not
    complementary. *)
Theorem read_pairing_violation (getSeqLength : Z -> Z) (this : BamAlignment)
  (h rest snk : list bam1_t) (r1 : bam1_t) :
  object_ok this h -> bam_is_paired r1 = true ->
  (rest = [] \/
   exists r2 rest', rest = r2 :: rest' /\ mates_complementary r1 r2 = false) ->
  exists msg,
    read getSeqLength this (mk_world h (r1 :: rest) snk) = Fatal msg.
Proof.
  intros Hok Hpaired Hbad.
  destruct (object_ok_first this h r1 Hok) as (_ & Hp1 & Hl1 & Hv2 & Hne).
  rewrite read_cons by done. rewrite Hpaired.
  destruct Hbad as [-> | (r2 & rest' & -> & Hcompl)].
  - exists msg_other_mate. apply bind_Fatal, read_second_mate_nil.
  - destruct (read_second_mate_cons this _ _ rest' snk r1 r2 Hp1 Hl1 Hv2 Hne)
      as (_ & Esecond).
    rewrite Hcompl in Esecond.
    destruct (bam_is_paired r2).
    + exists msg_both_mates. by apply bind_Fatal.
    + exists msg_other_mate. by apply bind_Fatal.
Qed.

(** A truncated pair, and two mates both flagged first-in-pair. *)
Lemma read_pairing_violation_witness :
  (object_ok fresh_object [] /\ bam_is_paired (sample_record 65) = true /\
   mates_complementary (sample_record 65) (sample_record8 65) = false) /\
  (exists msg,
     read (fun _ => 4) fresh_object (mk_world [] [sample_record 65] [])
     = Fatal msg) /\
  (exists msg,
     read (fun _ => 4) fresh_object
       (mk_world [] [sample_record 65; sample_record8 65] [])
     = Fatal msg).
Proof.
  split; [split; [apply fresh_object_ok | by repeat split]|]. split.
  - apply (read_pairing_violation (fun _ => 4) fresh_object [] [] []
             (sample_record 65) (fresh_object_ok []) eq_refl).
    by left.
  - apply (read_pairing_violation (fun _ => 4) fresh_object []
             [sample_record8 65] [] (sample_record 65)
             (fresh_object_ok []) eq_refl).
    right. by exists (sample_record8 65), [].
Defined.

(** C8: after a successful [read], [is_aligned] is
    (mate 1 mapped ? 1 : 0) | (paired and mate 2 mapped ? 2 : 0), where
    mate 1 is the record in [b] and mate 2 the record in [b2]: 0 for an
    unpaired unmapped read, 3 for a pair with both mates mapped, 2 for a
    pair with only mate 2 mapped, 1 for a pair with only mate 1 mapped. *)
Theorem read_alignment_status (getSeqLength : Z -> Z)
  (this t' : BamAlignment) (w w' : world) :
  read getSeqLength this w = Ret ((true, t'), w') ->
  exists p1 m1,
    b t' = Some p1 /\ heap w' !! p1 = Some m1 /\
    (is_paired t' = false ->
       is_aligned t' = spec_status false (bam_is_mapped m1) false /\
       (bam_is_mapped m1 = false -> is_aligned t' = 0)) /\
    (is_paired t' = true ->
       exists p2 m2,
         b2 t' = Some p2 /\ heap w' !! p2 = Some m2 /\
         is_aligned t'
         = spec_status true (bam_is_mapped m1) (bam_is_mapped m2) /\
         (bam_is_mapped m1 = true -> bam_is_mapped m2 = true ->
            is_aligned t' = 3) /\
         (bam_is_mapped m1 = false -> bam_is_mapped m2 = true ->
            is_aligned t' = 2) /\
         (bam_is_mapped m1 = true -> bam_is_mapped m2 = false ->
            is_aligned t' = 1)).
Proof.
  intros H. unfold read in H.
  apply bind_Ret_inv in H as (pb & w1 & _ & H).
  apply bind_Ret_inv in H as (ok & w2 & _ & H).
  destruct ok; cbn [negb] in H; [|discriminate H].
  apply bind_Ret_inv in H as (r & w3 & _ & H).
  apply bind_Ret_inv in H as ([p q] & w4 & _ & H). cbn [fst snd] in H.
  pose proof H as H0.
  apply read_status_inv in H0 as (-> & m1 & Hm1 & Hm2).
  exists p, m1. destruct (bam_is_paired r).
  - destruct (Hm2 eq_refl) as (a & m2 & -> & Ha).
    rewrite (read_status_paired _ _ _ _ _ _ Hm1 Ha) in H.
    destruct (_ && _); [|discriminate H]. injection H as <-.
    cbn [b b2 is_paired is_aligned].
    split; [done|]. split; [done|]. split; [done|]. intros _.
    exists a, m2. split; [done|]. split; [done|].
    destruct (bam_is_mapped m1), (bam_is_mapped m2); done.
  - rewrite (read_status_unpaired _ _ _ _ _ Hm1) in H.
    destruct (length_check _ _ _); [|discriminate H]. injection H as <-.
    cbn [b b2 is_paired is_aligned].
    split; [done|]. split; [done|]. split; [|done]. intros _.
    destruct (bam_is_mapped m1); done.
Qed.

(** A pair read in the order (mate 1 unmapped, mate 2): status 2. *)
Lemma read_alignment_status_witness :
  read (fun _ => 4) fresh_object
    (mk_world [] [sample_record 69; sample_record8 129] [])
  = Ret ((true, mk_aln true 2 (Some 0%nat) (Some 1%nat)),
         mk_world [sample_record 69; sample_record8 129] [] []) /\
  exists p1 m1 p2 m2,
    [sample_record 69; sample_record8 129] !! p1 = Some m1 /\
    [sample_record 69; sample_record8 129] !! p2 = Some m2 /\
    2 = spec_status true (bam_is_mapped m1) (bam_is_mapped m2).
Proof.
  assert (E : read (fun _ => 4) fresh_object
                (mk_world [] [sample_record 69; sample_record8 129] [])
              = Ret ((true, mk_aln true 2 (Some 0%nat) (Some 1%nat)),
                     mk_world [sample_record 69; sample_record8 129] [] []))
    by reflexivity.
  split; [exact E|].
  destruct (read_alignment_status _ _ _ _ _ E)
    as (p1 & m1 & _ & Hm1 & _ & Hp).
  destruct (Hp eq_refl) as (p2 & m2 & _ & Hm2 & Hst & _).
  by exists p1, m1, p2, m2.
Defined.

(** ** [write] *)

Lemma world_eta (w : world) : mk_world (heap w) (source w) (sink w) = w.
Proof. by destruct w. Qed.

Lemma reset_qseq_idem (r : bam1_t) : reset_qseq (reset_qseq r) = reset_qseq r.
Proof.
  unfold reset_qseq. destruct (l_qname r =? 1) eqn:E; cbn; by rewrite E.
Qed.

Lemma reset_qseq_fields (r : bam1_t) :
  (l_qname r = 1 -> l_qseq (reset_qseq r) = 0) /\
  (l_qname r <> 1 -> l_qseq (reset_qseq r) = l_qseq r) /\
  flag (reset_qseq r) = flag r /\ l_qname (reset_qseq r) = l_qname r /\
  l_extranul (reset_qseq r) = l_extranul r /\
  n_cigar (reset_qseq r) = n_cigar r /\ l_data (reset_qseq r) = l_data r /\
  data (reset_qseq r) = data r.
Proof.
  unfold reset_qseq. destruct (Z.eqb_spec (l_qname r) 1); cbn; tauto.
Qed.

Lemma reset_at_eq (p : nat) (w : world) (r : bam1_t) :
  heap w !! p = Some r ->
  reset_at p w
  = Ret (tt, mk_world (<[p := reset_qseq r]> (heap w)) (source w) (sink w)).
Proof.
  intros Hr. unfold reset_at, reset_qseq.
  erewrite bind_Ret by (by apply deref_eq).
  destruct (l_qname r =? 1).
  - unfold assign. rewrite bool_decide_eq_true_2; [done|].
    by eapply lookup_lt_Some.
  - rewrite list_insert_id by done. by rewrite world_eta.
Qed.

(** C10: a call of [write] whose entry assertion holds first runs the
    reset of lines 76-77 and only then the action on the store the reset
    leaves.  The reset leaves in every buffer of the unit the record it
    held with the sequence-length field 0 when the raw name-length field
    is 1, whatever the padding-null count, and with the sequence-length
    field unchanged otherwise; no other field, no other buffer, neither
    the source nor the sink is touched. *)
Theorem write_resets_legacy_qseq (grow : buffer -> Z -> buffer) (choice : Z)
  (o : option BamAlignment) (this : BamAlignment) (w : world) :
  0 <= is_aligned this -> is_Some (b this) ->
  (is_paired this = true -> is_Some (b2 this)) ->
  (forall p, unit_buffer this p -> is_Some (heap w !! p)) ->
  exists w',
    write_reset_qseq this w = Ret (tt, w') /\
    write grow choice o this w
    = (write_choice grow choice o this;; write_forward this;; mret true) w' /\
    source w' = source w /\ sink w' = sink w /\
    (forall p r,
       unit_buffer this p -> heap w !! p = Some r ->
       heap w' !! p = Some (reset_qseq r) /\
       (l_qname r = 1 -> l_qseq (reset_qseq r) = 0) /\
       (l_qname r <> 1 -> l_qseq (reset_qseq r) = l_qseq r)) /\
    (forall p, ~ unit_buffer this p -> heap w' !! p = heap w !! p).
Proof.
  intros Hal [pb Hb] Hb2 Hvalid.
  destruct (Hvalid pb) as [r Hr]; [by left|].
  pose proof (lookup_lt_Some _ _ _ Hr) as Hpb.
  assert (Hfields : forall r0, (l_qname r0 = 1 -> l_qseq (reset_qseq r0) = 0) /\
             (l_qname r0 <> 1 -> l_qseq (reset_qseq r0) = l_qseq r0))
    by (intros r0; pose proof (reset_qseq_fields r0); tauto).
  assert (Hassert :
    forall w', write_reset_qseq this w = Ret (tt, w') ->
    write grow choice o this w
    = (write_choice grow choice o this;; write_forward this;; mret true) w').
  { intros w' E. unfold write.
    replace (0 <=? is_aligned this) with true by (symmetry; by apply Z.leb_le).
    rewrite bool_decide_eq_true_2 by (by exists pb).
    replace (negb (is_paired this) || bool_decide (is_Some (b2 this)))
      with true.
    - erewrite bind_Ret by reflexivity. by erewrite bind_Ret by exact E.
    - destruct (is_paired this); [|done]. cbn.
      by rewrite bool_decide_eq_true_2 by auto. }
  unfold write_reset_qseq in *. rewrite Hb in *.
  destruct (is_paired this) eqn:Hpaired.
  - destruct (Hb2 eq_refl) as [pb2 Hpb2]. rewrite Hpb2 in *.
    set (h1 := <[pb := reset_qseq r]> (heap w)).
    assert (exists r2, h1 !! pb2 = Some r2) as [r2 Hr2].
    { apply lookup_lt_is_Some. unfold h1. rewrite length_insert.
      apply lookup_lt_is_Some. apply Hvalid. right. by rewrite Hpaired. }
    assert (E : (mret pb ≫= fun pb => reset_at pb;; (mret pb2 ≫= reset_at)) w
                = Ret (tt, mk_world (<[pb2 := reset_qseq r2]> h1)
                             (source w) (sink w))).
    { erewrite bind_Ret by reflexivity.
      erewrite bind_Ret by (by apply reset_at_eq).
      erewrite bind_Ret by reflexivity.
      by erewrite reset_at_eq by exact Hr2. }
    eexists. split; [exact E|]. split; [by apply Hassert|].
    split; [done|]. split; [done|]. cbn [heap]. split.
    + intros p r0 Hp Hr0. split; [|apply Hfields].
      destruct (decide (p = pb2)) as [-> | Hne2].
      * rewrite list_lookup_insert_eq
          by (unfold h1; rewrite length_insert; by eapply lookup_lt_Some).
        f_equal. unfold h1 in Hr2.
        destruct (decide (pb = pb2)) as [-> | Hne].
        -- rewrite list_lookup_insert_eq in Hr2 by done.
           injection Hr2 as <-. rewrite Hr in Hr0. injection Hr0 as <-.
           apply reset_qseq_idem.
        -- rewrite list_lookup_insert_ne in Hr2 by done. congruence.
      * rewrite list_lookup_insert_ne by done.
        assert (p = pb) as ->.
        { destruct Hp as [Hp | [_ Hp]]; cbn in Hp; congruence. }
        unfold h1. rewrite list_lookup_insert_eq by done. congruence.
    + intros p Hp. unfold h1.
      rewrite !list_lookup_insert_ne; [done|..].
      * intros <-. apply Hp. by left.
      * intros <-. apply Hp. right. by rewrite Hpaired.
  - assert (E : (mret pb ≫= fun pb => reset_at pb;; mret ()) w
                = Ret (tt, mk_world (<[pb := reset_qseq r]> (heap w))
                             (source w) (sink w))).
    { erewrite bind_Ret by reflexivity.
      by erewrite bind_Ret by (by apply reset_at_eq). }
    eexists. split; [exact E|]. split; [by apply Hassert|].
    split; [done|]. split; [done|]. cbn [heap]. split.
    + intros p r0 Hp Hr0. split; [|apply Hfields].
      assert (p = pb) as ->.
      { destruct Hp as [Hp | [Hp _]]; cbn in Hp; congruence. }
      rewrite list_lookup_insert_eq by done. congruence.
    + intros p Hp. rewrite list_lookup_insert_ne; [done|].
      intros <-. apply Hp. by left.
Qed.

Lemma write_resets_legacy_qseq_witness :
  (0 <= is_aligned (mk_aln true 3 (Some 0%nat) (Some 1%nat)) /\
   is_Some (b (mk_aln true 3 (Some 0%nat) (Some 1%nat)))) /\
  exists w',
    write_reset_qseq (mk_aln true 3 (Some 0%nat) (Some 1%nat))
      (mk_world [sample_legacy 65; sample_record8 129] [] [])
    = Ret (tt, w') /\
    heap w' !! 0%nat = Some (set_l_qseq 0 (sample_legacy 65)) /\
    heap w' !! 1%nat = Some (sample_record8 129).
Proof.
  assert (Hal : 0 <= is_aligned (mk_aln true 3 (Some 0%nat) (Some 1%nat)))
    by (cbn; lia).
  assert (Hb : is_Some (b (mk_aln true 3 (Some 0%nat) (Some 1%nat))))
    by (by eexists).
  split; [by split|].
  destruct (write_resets_legacy_qseq grow_zeroed 0 None
              (mk_aln true 3 (Some 0%nat) (Some 1%nat))
              (mk_world [sample_legacy 65; sample_record8 129] [] [])
              Hal Hb)
    as (w' & E & _ & _ & _ & Hunit & _).
  - intros _. by eexists.
  - intros p [Hp | [_ Hp]]; injection Hp as <-; by eexists.
  - exists w'. split; [exact E|]. split.
    + by apply (Hunit 0%nat (sample_legacy 65)); [left|].
    + by apply (Hunit 1%nat (sample_record8 129)); [right|].
Defined.

(** C1 (the code departs from it): [write] with action Decompress decides
    for mate 2 with the padding-null count of mate 1.  Both mates below are
    compacted.  With donors whose name carries 2 padding NULs, mate 1 is
    restored and then mate 2 is forwarded as it is, still compacted; with
    donors whose name carries 3 padding NULs, the same mate 2 is restored. *)
Theorem write_decompress_mate2_uses_mate1_padding :
  compacted (sample_compacted 129) /\
  write grow_zeroed 2 (Some (mk_aln true 3 (Some 2%nat) (Some 3%nat)))
    (mk_aln true 3 (Some 0%nat) (Some 1%nat))
    (mk_world [sample_compacted 65; sample_compacted 129;
               sample_record8 65; sample_record8 129] [] [])
  = Ret (true,
         mk_world [sample_record8 65; sample_compacted 129;
                   sample_record8 65; sample_record8 129] []
                  [sample_record8 65; sample_compacted 129]) /\
  write grow_zeroed 2 (Some (mk_aln true 3 (Some 2%nat) (Some 3%nat)))
    (mk_aln true 3 (Some 0%nat) (Some 1%nat))
    (mk_world [sample_compacted 65; sample_compacted 129;
               sample_record8_pad3 65; sample_record8_pad3 129] [] [])
  = Ret (true,
         mk_world [sample_record8_pad3 65; sample_record8_pad3 129;
                   sample_record8_pad3 65; sample_record8_pad3 129] []
                  [sample_record8_pad3 65; sample_record8_pad3 129]).
Proof. repeat split. Qed.

(** * Further properties of the program *)

(** ** More on byte buffers *)

Lemma overwrite_self (off n : Z) (d : buffer) :
  0 <= off -> 0 <= n -> off + n <= Z.of_nat (length d) ->
  overwrite off (bytes_at off n d) d = d.
Proof.
  intros Hoff Hn Hfit. apply list_eq. intros i.
  rewrite lookup_overwrite by (rewrite length_bytes_at by lia; lia).
  rewrite length_bytes_at by lia. rewrite lookup_bytes_at.
  repeat case_decide; try done; try lia. f_equal. lia.
Qed.

Lemma overwrite_same_bytes (off n : Z) (src : list Z) (d : buffer) :
  0 <= off -> 0 <= n -> off + n <= Z.of_nat (length d) ->
  bytes_at off n d = src -> overwrite off src d = d.
Proof. intros Hoff Hn Hfit <-. by apply overwrite_self. Qed.

Lemma bam1_eta (r : bam1_t) :
  mk_bam1 (flag r) (l_qname r) (l_extranul r) (n_cigar r) (l_qseq r)
          (l_data r) (data r) = r.
Proof. by destruct r. Qed.

(** ** More on [compress] *)

(** X1: [compress] is idempotent on well-formed records: compressing the
    result once more returns it unchanged, header and buffer. *)
Theorem compress_idempotent (b b' : bam1_t) :
  wf_record b -> compress b = Some b' -> compress b' = Some b'.
Proof.
  intros Hwf Hc.
  destruct (compress_spec b Hwf)
    as (r & Hr & Hf & Hn & He & Hnc & Hq & Hl & Hlen & Hname & Hcig & Haux).
  rewrite Hc in Hr. injection Hr as <-.
  destruct (compress_wf b b' Hwf Hc) as [Hwf' _].
  pose proof (compress_l_aux b b' Hwf Hc) as Hla.
  pose proof (wf_bounds b Hwf) as (Hc4 & Hh & Hauxb).
  pose proof (wf_l_aux_nonneg b Hwf) as Ha0.
  pose proof (wf_cigar_bytes b' Hwf') as Hcb.
  pose proof (seq_bytes_half b') as Hsb.
  assert (Hcap : 4 + 4 * n_cigar b + bam_get_l_aux b
                 <= Z.of_nat (length (data b')))
    by (destruct Hwf' as [_ _ _ _ _ _ _ Hcap]; lia).
  assert (Hint : 4 + 4 * n_cigar b + bam_get_l_aux b <= INT_MAX)
    by (destruct Hwf' as [_ _ _ _ _ _ Hint _]; lia).
  unfold compress, aux_off, cigar_off.
  rewrite Hcb, Hsb, Hla, Hn, Hnc, Hq. change ((0 + 1) / 2) with 0.
  rewrite n_cigar4 by done.
  unfold memset, memmove. rewrite in_buf_intro by lia.
  cbn [mbind option_bind]. change (Z.to_nat 4) with 4%nat. cbn [replicate].
  rewrite (overwrite_same_bytes 0 4) by (done || lia).
  rewrite !in_buf_intro by lia. cbn [andb mbind option_bind].
  rewrite overwrite_self by lia.
  rewrite !in_buf_intro by lia. cbn [andb mbind option_bind].
  replace (4 * n_cigar b + 4 + 0 + 0) with (4 + 4 * n_cigar b) by lia.
  rewrite overwrite_self by lia.
  rewrite i32_small by (unfold INT_MAX in *; lia).
  f_equal. clear -Hn He Hq Hl.
  destruct b' as [f ln le nc lq ld dt]. cbn in *. by subst.
Qed.

Lemma compress_idempotent_witness :
  (wf_record (sample_record8 16) /\
   compress (sample_record8 16) = Some (sample_compressed8 16)) /\
  compress (sample_compressed8 16) = Some (sample_compressed8 16).
Proof.
  split; [split; [apply sample_record8_wf | reflexivity]|].
  exact (compress_idempotent (sample_record8 16) (sample_compressed8 16)
           (sample_record8_wf 16) eq_refl).
Defined.

(** X2: on a well-formed record [compress] frees exactly the name bytes
    beyond the four of the placeholder, the packed sequence and the quality
    string; it keeps the flags and the capacity of the buffer, and its
    result is again a well-formed record. *)
Theorem compress_saves (b b' : bam1_t) :
  wf_record b -> compress b = Some b' ->
  l_data b' = l_data b - (l_qname b - 4) - ceil_half (l_qseq b) - l_qseq b /\
  l_data b' <= l_data b /\
  flag b' = flag b /\ length (data b') = length (data b) /\
  wf_record b'.
Proof.
  intros Hwf Hc.
  destruct (compress_spec b Hwf)
    as (r & Hr & Hf & Hn & He & Hnc & Hq & Hl & Hlen & _).
  rewrite Hc in Hr. injection Hr as <-.
  destruct (compress_wf b b' Hwf Hc) as [Hwf' _].
  pose proof (wf_l_aux b Hwf) as Ha.
  pose proof (wf_bounds b Hwf) as (Hc4 & Hh & Hauxb).
  pose proof (wf_qname_ge4 b Hwf) as H4.
  destruct Hwf as [_ _ _ _ Hq0 _ _ _].
  unfold ceil_half. split; [lia|]. split; [lia|]. done.
Qed.

Lemma compress_saves_witness :
  (wf_record (sample_record8 16) /\
   compress (sample_record8 16) = Some (sample_compressed8 16)) /\
  l_data (sample_compressed8 16) = 21 - (8 - 4) - 2 - 4.
Proof.
  split; [split; [apply sample_record8_wf | reflexivity]|].
  destruct (compress_saves (sample_record8 16) (sample_compressed8 16)
              (sample_record8_wf 16) eq_refl) as (H & _).
  exact H.
Defined.

(** X3: after [compress] of a well-formed record the name segment is four
    NUL bytes and the sequence and quality segments are empty, whatever the
    record held before. *)
Theorem compress_erases (b b' : bam1_t) :
  wf_record b -> compress b = Some b' ->
  get_qname b' = [0; 0; 0; 0] /\ get_seq b' = [] /\ get_qual b' = [].
Proof.
  intros Hwf Hc.
  destruct (compress_spec b Hwf)
    as (r & Hr & Hf & Hn & He & Hnc & Hq & Hl & Hlen & Hname & _).
  rewrite Hc in Hr. injection Hr as <-.
  unfold get_qname, get_seq, get_qual, qname_off, seq_bytes.
  rewrite Hn, Hq. split; [done|]. split; reflexivity.
Qed.

Lemma compress_erases_witness :
  (wf_record (sample_record8 16) /\
   compress (sample_record8 16) = Some (sample_compressed8 16)) /\
  get_qname (sample_compressed8 16) = [0; 0; 0; 0] /\
  get_seq (sample_compressed8 16) = [] /\
  get_qual (sample_compressed8 16) = [].
Proof.
  split; [split; [apply sample_record8_wf | reflexivity]|].
  exact (compress_erases (sample_record8 16) (sample_compressed8 16)
           (sample_record8_wf 16) eq_refl).
Defined.

(** ** More on [decompress] *)

Section Relocate.

Variable grow : buffer -> Z -> buffer.
Hypothesis grow_ok : grows grow.

(** The result of [decompress], for a compacted record without sequence:
    header, auxiliary length, well-formedness and the five segments. *)
Lemma decompress_compacted (c o : bam1_t) :
  wf_record c -> compacted c -> l_qseq c = 0 -> wf_record o ->
  restored_length c o <= INT_MAX ->
  exists r,
    decompress grow c o = Some r /\
    (flag r = flag c /\ l_qname r = l_qname o /\
     l_extranul r = l_extranul o /\ n_cigar r = n_cigar c /\
     l_qseq r = l_qseq o /\ l_data r = restored_length c o) /\
    bam_get_l_aux r = bam_get_l_aux c /\ wf_record r /\
    get_qname r = get_qname o /\ get_cigar r = get_cigar c /\
    get_aux r = get_aux c.
Proof.
  intros Hwf Hcomp Hq0 Hwfo Hfit.
  destruct (wf_compacted_name c Hwf Hcomp) as [HL HE].
  destruct (decompress_spec grow c o grow_ok Hwf Hwfo Hfit)
    as (r & Hr & Hf & Hn & He & Hnc & Hq & Hl & Hcap & Hname & Hcig & Haux
        & _).
  pose proof (wf_bounds c Hwf) as (Hc4 & Hh & Hauxb).
  pose proof (wf_bounds o Hwfo) as (Hc4o & Hho & Hauxo).
  pose proof (wf_qname_ge4 o Hwfo) as H4o.
  pose proof (wf_l_aux_nonneg c Hwf) as Ha0.
  pose proof (wf_cigar_bytes c Hwf) as Hcb.
  pose proof (seq_bytes_half c) as Hsb.
  assert (Hla : bam_get_l_aux r = bam_get_l_aux c).
  { unfold bam_get_l_aux at 1. unfold cigar_bytes, seq_bytes.
    unfold restored_length in *.
    rewrite shiftl2, shiftr1, Hn, Hnc, Hq, Hl.
    rewrite u32_small by lia.
    destruct Hwfo. rewrite i32_small; unfold INT_MAX in *; lia. }
  assert (Hwfr : wf_record r).
  { destruct Hwfo as [He' Hn' Hal Hc' Hq' Hl' Hi Hcap'].
    destruct Hwf as [_ _ _ Hcn _ _ _ _].
    unfold restored_length in *.
    constructor; rewrite ?Hn, ?He, ?Hnc, ?Hq, ?Hl; try done; lia. }
  exists r. split; [done|]. split; [done|]. split; [done|]. split; [done|].
  split; [done|]. split.
  - rewrite Hcig. unfold get_cigar, cigar_off. by rewrite Hcb, HL.
  - unfold get_aux. rewrite Hla, Haux. unfold aux_off.
    rewrite Hcb, Hsb, HL, Hq0. change ((0 + 1) / 2) with 0. f_equal. lia.
Qed.

(** X4: [decompress] of a well-formed compacted record without sequence
    keeps its flags and its CIGAR and auxiliary bytes (now at their new
    offsets), takes the name and the three name and sequence lengths from
    the donor, and returns a well-formed record. *)
Theorem decompress_keeps_alignment (c o : bam1_t) :
  wf_record c -> compacted c -> l_qseq c = 0 -> wf_record o ->
  restored_length c o <= INT_MAX ->
  exists r,
    decompress grow c o = Some r /\
    flag r = flag c /\ n_cigar r = n_cigar c /\
    get_cigar r = get_cigar c /\ get_aux r = get_aux c /\
    get_qname r = get_qname o /\ l_qname r = l_qname o /\
    l_extranul r = l_extranul o /\ l_qseq r = l_qseq o /\
    wf_record r.
Proof.
  intros Hwf Hcomp Hq0 Hwfo Hfit.
  destruct (decompress_compacted c o Hwf Hcomp Hq0 Hwfo Hfit)
    as (r & Hr & (Hf & Hn & He & Hnc & Hq & Hl) & Hla & Hwfr & Hname & Hcig
        & Haux).
  exists r. tauto.
Qed.

(** X5: the round trip in the other direction.  Restoring a well-formed
    compacted record (placeholder name of four NULs, no sequence) from any
    well-formed donor and compressing the result gives back the header of
    the compacted record, flags included, and its name, CIGAR and auxiliary
    bytes. *)
Theorem compress_decompress (c o : bam1_t) :
  wf_record c -> compacted c -> l_qseq c = 0 ->
  get_qname c = [0; 0; 0; 0] -> wf_record o ->
  restored_length c o <= INT_MAX ->
  exists r c',
    decompress grow c o = Some r /\ compress r = Some c' /\
    (flag c' = flag c /\ l_qname c' = l_qname c /\
     l_extranul c' = l_extranul c /\ n_cigar c' = n_cigar c /\
     l_qseq c' = l_qseq c /\ l_data c' = l_data c) /\
    get_qname c' = get_qname c /\ get_cigar c' = get_cigar c /\
    get_aux c' = get_aux c.
Proof.
  intros Hwf Hcomp Hq0 Hzero Hwfo Hfit.
  destruct (wf_compacted_name c Hwf Hcomp) as [HL HE].
  destruct (decompress_compacted c o Hwf Hcomp Hq0 Hwfo Hfit)
    as (r & Hr & (Hf & Hn & He & Hnc & Hq & Hl) & Hla & Hwfr & Hname & Hcig
        & Haux).
  destruct (compress_spec r Hwfr)
    as (c' & Hc' & Hf' & Hn' & He' & Hnc' & Hq' & Hl' & _ & Hname' & _).
  destruct (compress_segments r c' Hwfr Hc') as [Hcig' Haux'].
  pose proof (wf_l_aux c Hwf) as Ha.
  exists r, c'. split; [done|]. split; [done|]. split.
  - rewrite Hf', Hn', He', Hnc', Hq', Hl', Hf, Hnc, Hla, HL, HE, Hq0, Ha.
    rewrite HL, Hq0. change ((0 + 1) / 2) with 0.
    repeat split; lia.
  - split; [|split; congruence].
    rewrite Hzero. unfold get_qname, qname_off. by rewrite Hn'.
Qed.

End Relocate.

Lemma decompress_keeps_alignment_witness :
  (grows grow_zeroed /\ wf_record (sample_compacted 16) /\
   compacted (sample_compacted 16) /\ l_qseq (sample_compacted 16) = 0 /\
   wf_record (sample_record8 0) /\
   restored_length (sample_compacted 16) (sample_record8 0) <= INT_MAX) /\
  exists r,
    decompress grow_zeroed (sample_compacted 16) (sample_record8 0) = Some r /\
    flag r = 16 /\ get_cigar r = [64; 0; 0; 0] /\ get_aux r = [88; 89; 90] /\
    wf_record r.
Proof.
  assert (Hfit : restored_length (sample_compacted 16) (sample_record8 0)
                 <= INT_MAX) by (by vm_compute).
  split.
  { pose proof grow_zeroed_grows. pose proof (sample_compacted_wf 16).
    pose proof (sample_record8_wf 0).
    assert (compacted (sample_compacted 16)) by reflexivity.
    assert (l_qseq (sample_compacted 16) = 0) by reflexivity. tauto. }
  destruct (decompress_keeps_alignment grow_zeroed grow_zeroed_grows
              (sample_compacted 16) (sample_record8 0)
              (sample_compacted_wf 16) eq_refl eq_refl (sample_record8_wf 0)
              Hfit)
    as (r & Hr & Hf & _ & Hcig & Haux & _ & _ & _ & _ & Hwfr).
  exists r. rewrite Hcig, Haux, Hf.
  split; [exact Hr|]. split; [reflexivity|]. split; [reflexivity|].
  split; [reflexivity|]. exact Hwfr.
Defined.

Lemma compress_decompress_witness :
  (grows grow_zeroed /\ wf_record (sample_compacted 16) /\
   compacted (sample_compacted 16) /\ l_qseq (sample_compacted 16) = 0 /\
   get_qname (sample_compacted 16) = [0; 0; 0; 0] /\
   wf_record (sample_record8 0) /\
   restored_length (sample_compacted 16) (sample_record8 0) <= INT_MAX) /\
  exists r c',
    decompress grow_zeroed (sample_compacted 16) (sample_record8 0) = Some r /\
    compress r = Some c' /\
    l_data c' = 11 /\ get_cigar c' = [64; 0; 0; 0] /\
    get_aux c' = [88; 89; 90].
Proof.
  assert (Hfit : restored_length (sample_compacted 16) (sample_record8 0)
                 <= INT_MAX) by (by vm_compute).
  split.
  { pose proof grow_zeroed_grows. pose proof (sample_compacted_wf 16).
    pose proof (sample_record8_wf 0).
    assert (compacted (sample_compacted 16)) by reflexivity.
    assert (l_qseq (sample_compacted 16) = 0) by reflexivity.
    assert (get_qname (sample_compacted 16) = [0; 0; 0; 0]) by reflexivity.
    tauto. }
  destruct (compress_decompress grow_zeroed grow_zeroed_grows
              (sample_compacted 16) (sample_record8 0)
              (sample_compacted_wf 16) eq_refl eq_refl eq_refl
              (sample_record8_wf 0) Hfit)
    as (r & c' & Hr & Hc' & (_ & _ & _ & _ & _ & Hl) & _ & Hcig & Haux).
  exists r, c'. rewrite Hcig, Haux, Hl. repeat split; done.
Defined.

(** ** More on the complement table *)

(** X6: for every 4-bit code the complement table returns a 4-bit code;
    the codes with a defined complement are exactly 1, 2, 4, 8 and 15 (A,
    C, G, T and N), every other code is sent to 0, and the table applied
    three times is the table applied once. *)
Theorem rnt_table_image (c : Z) :
  0 <= c < 16 ->
  0 <= rnt_table c < 16 /\
  (has_complement c <-> c = 1 \/ c = 2 \/ c = 4 \/ c = 8 \/ c = 15) /\
  rnt_table (rnt_table (rnt_table c)) = rnt_table c.
Proof.
  intros Hrange. split; [apply rnt_table_range|].
  unfold has_complement, rnt_table, rnt_table_entries.
  assert (Hc : c = Z.of_nat (Z.to_nat c)) by lia.
  assert (Hn : (Z.to_nat c < 16)%nat) by lia.
  rewrite Hc, !Nat2Z.id. revert Hn. generalize (Z.to_nat c). intros n Hn.
  do 16 (destruct n as [|n];
         [cbn; split; [split; intros; try done; lia|done]|]).
  lia.
Qed.

Lemma rnt_table_image_witness :
  0 <= 3 < 16 /\ rnt_table 3 = 0 /\ ~ has_complement 3.
Proof.
  assert (H : 0 <= 3 < 16) by lia.
  destruct (rnt_table_image 3 H) as (_ & Hiff & _).
  split; [exact H|]. split; [reflexivity|].
  intros Hc. apply Hiff in Hc. lia.
Defined.

(** ** More on [read] *)

Lemma mate_bits_not_read2 (r : bam1_t) :
  Z.land (flag r) 192 = 64 -> bam_is_read2 r = false.
Proof.
  intros H. unfold bam_is_read2, BAM_FREAD2.
  change 128 with (Z.land 192 128) at 1.
  by rewrite Z.land_assoc, H.
Qed.

Lemma mates_complementary_cases (r1 r2 : bam1_t) :
  mates_complementary r1 r2 = true ->
  (Z.land (flag r1) 192 = 64 /\ Z.land (flag r2) 192 = 128) \/
  (Z.land (flag r1) 192 = 128 /\ Z.land (flag r2) 192 = 64).
Proof.
  unfold mates_complementary.
  rewrite orb_true_iff, !andb_true_iff, !Z.eqb_eq. tauto.
Qed.

Lemma read_closed_form (getSeqLength : Z -> Z) (this : BamAlignment)
  (w : world) :
  object_ok this (heap w) ->
  read getSeqLength this w = read_outcome getSeqLength this w.
Proof.
  destruct w as [h src snk]. cbn [heap]. intros Hok.
  unfold read_outcome. cbn [heap source sink].
  destruct src as [|r1 rest].
  - unfold read. erewrite bind_Ret by apply or_init_eq. reflexivity.
  - rewrite read_cons by done.
    destruct (object_ok_first this h r1 Hok) as (_ & Hp1 & Hl1 & Hv2 & Hne).
    destruct (bam_is_paired r1).
    + destruct rest as [|r2 rest'].
      * apply bind_Fatal, read_second_mate_nil.
      * destruct (read_second_mate_cons this _ _ rest' snk r1 r2
                    Hp1 Hl1 Hv2 Hne) as ((L1 & L2) & E).
        destruct (bam_is_paired r2); cbn [negb]; [|by apply bind_Fatal].
        destruct (mates_complementary r1 r2); cbn [negb];
          [|by apply bind_Fatal].
        erewrite bind_Ret by exact E.
        destruct (bam_is_read2 r1); cbn [fst snd].
        -- by erewrite read_status_paired by (cbn [heap]; eassumption).
        -- by erewrite read_status_paired by (cbn [heap]; eassumption).
    + erewrite bind_Ret by reflexivity. cbn [fst snd].
      by erewrite read_status_unpaired by (cbn [heap]; eassumption).
Qed.

(** Every way [read] can return, for an object that owns its buffers. *)
Lemma read_returns (getSeqLength : Z -> Z) (this t' : BamAlignment)
  (w w' : world) (ok : bool) :
  object_ok this (heap w) ->
  read getSeqLength this w = Ret ((ok, t'), w') ->
  let p1 := buffer_of (b this) (heap w) in
  let h0 := heap_with (b this) (heap w) in
  sink w' = sink w /\
  ((source w = [] /\ ok = false /\ source w' = [] /\ heap w' = h0 /\
    t' = mk_aln (is_paired this) (-1) (Some p1) (b2 this)) \/
   (exists r1 rest,
      source w = r1 :: rest /\ ok = true /\
      let h1 := <[p1 := r1]> h0 in
      ((bam_is_paired r1 = false /\ source w' = rest /\ heap w' = h1 /\
        length_check getSeqLength 1 r1 = true /\
        t' = mk_aln false (b2z (bam_is_mapped r1)) (Some p1) (b2 this)) \/
       (bam_is_paired r1 = true /\
        exists r2 rest',
          rest = r2 :: rest' /\ source w' = rest' /\
          bam_is_paired r2 = true /\ mates_complementary r1 r2 = true /\
          let p2 := buffer_of (b2 this) h1 in
          let h2 := <[p2 := r2]> (heap_with (b2 this) h1) in
          let swap := bam_is_read2 r1 in
          let m1 := if swap then r2 else r1 in
          let m2 := if swap then r1 else r2 in
          heap w' = h2 /\ p1 <> p2 /\
          h2 !! p1 = Some r1 /\ h2 !! p2 = Some r2 /\
          length_check getSeqLength 1 m1 = true /\
          length_check getSeqLength 2 m2 = true /\
          t' = mk_aln true
                 (Z.lor (b2z (bam_is_mapped m1))
                        (Z.shiftl (b2z (bam_is_mapped m2)) 1))
                 (Some (if swap then p2 else p1))
                 (Some (if swap then p1 else p2)))))).
Proof.
  intros Hok H p1 h0. rewrite read_closed_form in H by done.
  destruct w as [h src snk]. unfold read_outcome in H.
  cbn [heap source sink] in *. fold p1 h0 in H.
  destruct src as [|r1 rest].
  - injection H as <- <- <-. split; [done|]. left. done.
  - destruct (object_ok_first this h r1 Hok) as (_ & Hp1 & Hl1 & Hv2 & Hne).
    fold p1 h0 in Hp1, Hl1, Hv2, Hne.
    destruct (bam_is_paired r1) eqn:Hpaired.
    + destruct rest as [|r2 rest']; [discriminate H|].
      destruct (read_second_mate_cons this p1 _ rest' snk r1 r2
                  Hp1 Hl1 Hv2 Hne) as ((L1 & L2) & _).
      pose proof (buffer_of_ne _ _ _ Hp1 Hne) as Hp12.
      destruct (bam_is_paired r2) eqn:Hpaired2; cbn [negb] in H;
        [|discriminate H].
      destruct (mates_complementary r1 r2) eqn:Hcompl; cbn [negb] in H;
        [|discriminate H].
      destruct (length_check _ 1 _ && length_check _ 2 _) eqn:Hlen;
        [|discriminate H].
      apply andb_true_iff in Hlen as [Hlen1 Hlen2].
      injection H as <- <- <-. split; [done|]. right.
      exists r1, (r2 :: rest'). split; [done|]. split; [done|].
      right. split; [done|]. exists r2, rest'. cbv zeta.
      split_and!; try done; congruence.
    + destruct (length_check _ 1 r1) eqn:Hlen; [|discriminate H].
      injection H as <- <- <-. split; [done|]. right.
      exists r1, rest. split; [done|]. split; [done|]. left. done.
Qed.

Lemma read_false_inv (getSeqLength : Z -> Z) (this t' : BamAlignment)
  (w w' : world) :
  read getSeqLength this w = Ret ((false, t'), w') ->
  source w = [] /\ is_aligned t' = -1.
Proof.
  destruct w as [h src snk]. cbn [source]. intros H. unfold read in H.
  apply bind_Ret_inv in H as (pb & w1 & E1 & H).
  rewrite or_init_eq in E1. injection E1 as <- <-.
  apply bind_Ret_inv in H as (ok & w2 & E2 & H).
  destruct src as [|r1 rest].
  - injection E2 as <- <-. cbn [negb] in H. by injection H as <- <-.
  - exfalso. unfold parser_read in E2. cbn [source heap] in E2.
    case_bool_decide; [|discriminate E2]. injection E2 as <- <-.
    cbn [negb] in H.
    apply bind_Ret_inv in H as (r & w3 & _ & H).
    apply bind_Ret_inv in H as ([p q] & w4 & _ & H). cbn [fst snd] in H.
    pose proof H as Hst.
    apply read_status_inv in Hst as (-> & m1 & Hm1 & Hm2).
    destruct (bam_is_paired r).
    + destruct (Hm2 eq_refl) as (a & m2 & -> & Ha).
      rewrite (read_status_paired _ _ _ _ _ _ Hm1 Ha) in H.
      destruct (_ && _); discriminate H.
    + rewrite (read_status_unpaired _ _ _ _ _ Hm1) in H.
      destruct (length_check _ _ _); discriminate H.
Qed.

(** X7: on an exhausted source [read] returns [false] and is not an
    error: [is_aligned] is -1, [is_paired] and [b2] keep their values, and
    nothing changes but the allocation of [b] when it was [NULL].
    Conversely [read] returns [false] only when the source is exhausted. *)
Theorem read_end_of_stream (getSeqLength : Z -> Z) (this : BamAlignment)
  (w : world) :
  (source w = [] ->
   read getSeqLength this w
   = Ret ((false,
           mk_aln (is_paired this) (-1)
                  (Some (buffer_of (b this) (heap w))) (b2 this)),
          mk_world (heap_with (b this) (heap w)) [] (sink w))) /\
  (forall t' w',
     read getSeqLength this w = Ret ((false, t'), w') -> source w = []).
Proof.
  destruct w as [h src snk]. cbn [heap source sink]. split.
  - intros ->. unfold read. erewrite bind_Ret by apply or_init_eq.
    reflexivity.
  - intros t' w' H. by apply read_false_inv in H as [? _].
Qed.

Lemma read_end_of_stream_witness :
  read (fun _ => 4) fresh_object (mk_world [] [] [])
  = Ret ((false, mk_aln false (-1) (Some 0%nat) None),
         mk_world [empty_record] [] []) /\
  source (mk_world [] [] []) = [].
Proof.
  destruct (read_end_of_stream (fun _ => 4) fresh_object (mk_world [] [] []))
    as [Hempty Hconv].
  split; [exact (Hempty eq_refl)|].
  exact (Hconv _ _ (Hempty eq_refl)).
Defined.

(** X8: a first record that is not flagged paired forms a unit alone.
    Exactly one record is taken from the source, [b2] is left as it was,
    and the status is 1 for a mapped record and 0 for an unmapped one; the
    call is a fatal defect when the record is mapped and its sequence
    length (or the length hint, when the field is not positive) differs
    from the length implied by its CIGAR. *)
Theorem read_unpaired (getSeqLength : Z -> Z) (this : BamAlignment)
  (h rest snk : list bam1_t) (r1 : bam1_t) :
  object_ok this h -> bam_is_paired r1 = false ->
  let p1 := buffer_of (b this) h in
  read getSeqLength this (mk_world h (r1 :: rest) snk)
  = if negb (bam_is_mapped r1)
       || (resolved_length getSeqLength 1 r1 =? bam_cigar2qlen r1)
    then Ret ((true,
               mk_aln false (if bam_is_mapped r1 then 1 else 0)
                      (Some p1) (b2 this)),
              mk_world (<[p1 := r1]> (heap_with (b this) h)) rest snk)
    else Fatal "assertion failed".
Proof.
  intros Hok Hpaired p1.
  rewrite read_closed_form by done. unfold read_outcome.
  cbn [heap source sink]. by rewrite Hpaired.
Qed.

Lemma read_unpaired_witness :
  (object_ok fresh_object [] /\ bam_is_paired (sample_record 16) = false) /\
  read (fun _ => 4) fresh_object
    (mk_world [] [sample_record 16; sample_record8 0] [])
  = Ret ((true, mk_aln false 1 (Some 0%nat) None),
         mk_world [sample_record 16] [sample_record8 0] []).
Proof.
  split; [split; [apply fresh_object_ok | reflexivity]|].
  rewrite (read_unpaired (fun _ => 4) fresh_object [] [sample_record8 0] []
             (sample_record 16) (fresh_object_ok []) eq_refl).
  reflexivity.
Defined.

(** X9: when mate 1 arrives first (first record flagged paired and
    first-in-pair, second record flagged second-in-pair) the pointers are
    not exchanged: [b] is the buffer of the first record read and [b2] the
    buffer of the second. *)
Theorem read_pair_in_order (getSeqLength : Z -> Z) (this : BamAlignment)
  (h rest snk : list bam1_t) (r1 r2 : bam1_t) :
  object_ok this h -> bam_is_paired r1 = true ->
  Z.land (flag r1) 192 = 64 -> Z.land (flag r2) 192 = 128 ->
  let p1 := buffer_of (b this) h in
  let h1 := <[p1 := r1]> (heap_with (b this) h) in
  let p2 := buffer_of (b2 this) h1 in
  let h2 := <[p2 := r2]> (heap_with (b2 this) h1) in
  (h2 !! p1 = Some r1 /\ h2 !! p2 = Some r2) /\
  read getSeqLength this (mk_world h (r1 :: r2 :: rest) snk)
  = if bam_is_paired r2 then
      if length_check getSeqLength 1 r1 && length_check getSeqLength 2 r2
      then Ret ((true,
                 mk_aln true
                   (Z.lor (b2z (bam_is_mapped r1))
                          (Z.shiftl (b2z (bam_is_mapped r2)) 1))
                   (Some p1) (Some p2)),
                mk_world h2 rest snk)
      else Fatal "assertion failed"
    else Fatal msg_other_mate.
Proof.
  intros Hok Hpaired Hf1 Hf2 p1 h1 p2 h2.
  destruct (object_ok_first this h r1 Hok) as (_ & Hp1 & Hl1 & Hv2 & Hne).
  destruct (read_second_mate_cons this p1 h1 rest snk r1 r2 Hp1 Hl1 Hv2 Hne)
    as (HL & _).
  split; [exact HL|].
  rewrite read_closed_form by done. unfold read_outcome.
  cbn [heap source sink]. rewrite Hpaired.
  assert (Hcompl : mates_complementary r1 r2 = true).
  { unfold mates_complementary. rewrite Hf1, Hf2. reflexivity. }
  rewrite Hcompl, (mate_bits_not_read2 r1 Hf1).
  by destruct (bam_is_paired r2).
Qed.

Lemma read_pair_in_order_witness :
  (object_ok fresh_object [] /\ bam_is_paired (sample_record 65) = true /\
   Z.land (flag (sample_record 65)) 192 = 64 /\
   Z.land (flag (sample_record8 129)) 192 = 128) /\
  read (fun _ => 4) fresh_object
    (mk_world [] [sample_record 65; sample_record8 129] [])
  = Ret ((true, mk_aln true 3 (Some 0%nat) (Some 1%nat)),
         mk_world [sample_record 65; sample_record8 129] [] []).
Proof.
  split; [split; [apply fresh_object_ok | by repeat split]|].
  destruct (read_pair_in_order (fun _ => 4) fresh_object [] [] []
              (sample_record 65) (sample_record8 129)
              (fresh_object_ok []) eq_refl eq_refl eq_refl)
    as (_ & E).
  rewrite E. reflexivity.
Defined.



(** X11: in every unit returned by [read], the record in [b] is flagged
    paired exactly when the unit is paired; in a paired unit [b] and [b2]
    are different buffers, both records are flagged paired, the record in
    [b] is flagged first-in-pair only and the record in [b2]
    second-in-pair only, whichever came first in the source. *)
Theorem read_unit_mates (getSeqLength : Z -> Z) (this t' : BamAlignment)
  (w w' : world) :
  object_ok this (heap w) ->
  read getSeqLength this w = Ret ((true, t'), w') ->
  exists p1 m1,
    b t' = Some p1 /\ heap w' !! p1 = Some m1 /\
    bam_is_paired m1 = is_paired t' /\
    (is_paired t' = true ->
     exists p2 m2,
       b2 t' = Some p2 /\ p2 <> p1 /\ heap w' !! p2 = Some m2 /\
       bam_is_paired m2 = true /\
       Z.land (flag m1) 192 = 64 /\ Z.land (flag m2) 192 = 128).
Proof.
  intros Hok H.
  destruct (read_returns _ _ _ _ _ _ Hok H) as (_ & Hcases).
  destruct Hcases as [(_ & Hfalse & _) | (r1 & rest & Hsrc & _ & Hcases)];
    [discriminate Hfalse|].
  destruct (object_ok_first this (heap w) r1 Hok) as (_ & _ & Hl1 & _).
  destruct Hcases as [(Hp & _ & Hh & _ & ->)
                     | (Hp & r2 & rest' & _ & _ & Hp2 & Hcompl & Hh & Hne
                        & L1 & L2 & _ & _ & ->)]; cbn [b b2 is_paired].
  - eexists _, r1. rewrite Hh. split; [done|]. split; [done|].
    split; [done|]. done.
  - rewrite Hh.
    destruct (mates_complementary_cases r1 r2 Hcompl) as [[F1 F2] | [F1 F2]].
    + rewrite (mate_bits_not_read2 r1 F1).
      eexists _, r1. split; [done|]. split; [done|]. split; [done|].
      intros _. eexists _, r2. split_and!; done.
    + rewrite (mate_bits_read2 r1 F1).
      eexists _, r2. split; [done|]. split; [done|]. split; [done|].
      intros _. eexists _, r1. split_and!; done.
Qed.

Lemma read_unit_mates_witness :
  (object_ok fresh_object [] /\
   read (fun _ => 4) fresh_object
     (mk_world [] [sample_record 129; sample_record8 65] [])
   = Ret ((true, mk_aln true 3 (Some 1%nat) (Some 0%nat)),
          mk_world [sample_record 129; sample_record8 65] [] [])) /\
  exists m1 m2,
    [sample_record 129; sample_record8 65] !! 1%nat = Some m1 /\
    [sample_record 129; sample_record8 65] !! 0%nat = Some m2 /\
    Z.land (flag m1) 192 = 64 /\ Z.land (flag m2) 192 = 128.
Proof.
  assert (E : read (fun _ => 4) fresh_object
                (mk_world [] [sample_record 129; sample_record8 65] [])
              = Ret ((true, mk_aln true 3 (Some 1%nat) (Some 0%nat)),
                     mk_world [sample_record 129; sample_record8 65] [] []))
    by reflexivity.
  split; [split; [apply fresh_object_ok | exact E]|].
  destruct (read_unit_mates (fun _ => 4) fresh_object _
              (mk_world [] [sample_record 129; sample_record8 65] []) _
              (fresh_object_ok []) E)
    as (p1 & m1 & Hb & Hm1 & _ & Hp).
  destruct (Hp eq_refl) as (p2 & m2 & Hb2 & _ & Hm2 & _ & F1 & F2).
  injection Hb as <-. injection Hb2 as <-.
  by exists m1, m2.
Defined.

(** X12: in every unit returned by [read], a mate that is mapped has a
    sequence length (its own field when positive, the caller's length hint
    otherwise) equal to the length implied by its CIGAR. *)
Theorem read_unit_lengths (getSeqLength : Z -> Z) (this t' : BamAlignment)
  (w w' : world) :
  read getSeqLength this w = Ret ((true, t'), w') ->
  exists p1 m1,
    b t' = Some p1 /\ heap w' !! p1 = Some m1 /\
    (bam_is_mapped m1 = true ->
     resolved_length getSeqLength 1 m1 = bam_cigar2qlen m1) /\
    (is_paired t' = true ->
     exists p2 m2,
       b2 t' = Some p2 /\ heap w' !! p2 = Some m2 /\
       (bam_is_mapped m2 = true ->
        resolved_length getSeqLength 2 m2 = bam_cigar2qlen m2)).
Proof.
  intros H. unfold read in H.
  apply bind_Ret_inv in H as (pb & w1 & _ & H).
  apply bind_Ret_inv in H as (ok & w2 & _ & H).
  destruct ok; cbn [negb] in H; [|discriminate H].
  apply bind_Ret_inv in H as (r & w3 & _ & H).
  apply bind_Ret_inv in H as ([p q] & w4 & _ & H). cbn [fst snd] in H.
  pose proof H as Hst.
  apply read_status_inv in Hst as (-> & m1 & Hm1 & Hm2).
  assert (Hcheck : forall mate m,
            length_check getSeqLength mate m = true ->
            bam_is_mapped m = true ->
            resolved_length getSeqLength mate m = bam_cigar2qlen m).
  { intros mate m Hc Hm. unfold length_check in Hc. rewrite Hm in Hc.
    by apply Z.eqb_eq. }
  exists p, m1. destruct (bam_is_paired r).
  - destruct (Hm2 eq_refl) as (a & m2 & -> & Ha).
    rewrite (read_status_paired _ _ _ _ _ _ Hm1 Ha) in H.
    destruct (length_check _ 1 _ && length_check _ 2 _) eqn:Hlen;
      [|discriminate H].
    apply andb_true_iff in Hlen as [Hlen1 Hlen2]. injection H as <-.
    cbn [b b2 is_paired]. split; [done|]. split; [done|].
    split; [by apply Hcheck|]. intros _. exists a, m2.
    split; [done|]. split; [done|]. by apply Hcheck.
  - rewrite (read_status_unpaired _ _ _ _ _ Hm1) in H.
    destruct (length_check _ 1 _) eqn:Hlen; [|discriminate H].
    injection H as <-. cbn [b b2 is_paired].
    split; [done|]. split; [done|]. split; [by apply Hcheck|]. done.
Qed.

Lemma read_unit_lengths_witness :
  read (fun _ => 4) fresh_object
    (mk_world [] [sample_record 129; sample_record8 65] [])
  = Ret ((true, mk_aln true 3 (Some 1%nat) (Some 0%nat)),
         mk_world [sample_record 129; sample_record8 65] [] []) /\
  exists m1,
    [sample_record 129; sample_record8 65] !! 1%nat = Some m1 /\
    resolved_length (fun _ => 4) 1 m1 = bam_cigar2qlen m1.
Proof.
  assert (E : read (fun _ => 4) fresh_object
                (mk_world [] [sample_record 129; sample_record8 65] [])
              = Ret ((true, mk_aln true 3 (Some 1%nat) (Some 0%nat)),
                     mk_world [sample_record 129; sample_record8 65] [] []))
    by reflexivity.
  split; [exact E|].
  destruct (read_unit_lengths _ _ _ _ _ E) as (p1 & m1 & Hb & Hm1 & Hlen & _).
  injection Hb as <-. exists m1. split; [exact Hm1|].
  apply Hlen. cbn in Hm1. by injection Hm1 as <-.
Defined.

Lemma length_heap_with_bound (p : option nat) (h : list bam1_t) :
  (length (heap_with p h) <= length h + 1)%nat /\
  (is_Some p -> length (heap_with p h) = length h).
Proof.
  destruct p as [a|]; cbn.
  - split; [lia|done].
  - rewrite length_app. cbn. split; [lia|]. by intros [? ?].
Qed.

Lemma valid_ptr_length (p : option nat) (h h' : list bam1_t) :
  valid_ptr p h -> length h = length h' -> valid_ptr p h'.
Proof. intros Hv E a Ha. rewrite <- E. by apply Hv. Qed.

(** X13: a unit returned by [read] is made of the next records of the
    source and nothing else: one record for an unpaired unit, the next two
    records, in either order, for a paired unit.  The rest of the source is
    left for the next call and the sink is not touched. *)
Theorem read_consumes (getSeqLength : Z -> Z) (this t' : BamAlignment)
  (w w' : world) :
  object_ok this (heap w) ->
  read getSeqLength this w = Ret ((true, t'), w') ->
  sink w' = sink w /\
  exists p1 m1,
    b t' = Some p1 /\ heap w' !! p1 = Some m1 /\
    (is_paired t' = false -> source w = m1 :: source w') /\
    (is_paired t' = true ->
     exists p2 m2,
       b2 t' = Some p2 /\ heap w' !! p2 = Some m2 /\
       (source w = m1 :: m2 :: source w' \/
        source w = m2 :: m1 :: source w')).
Proof.
  intros Hok H.
  destruct (read_returns _ _ _ _ _ _ Hok H) as (Hsink & Hcases).
  split; [done|].
  destruct Hcases as [(_ & Hfalse & _) | (r1 & rest & Hsrc & _ & Hcases)];
    [discriminate Hfalse|].
  destruct (object_ok_first this (heap w) r1 Hok) as (_ & _ & Hl1 & _).
  destruct Hcases as [(Hp & Hrest & Hh & _ & ->)
                     | (Hp & r2 & rest' & -> & Hrest & _ & _ & Hh & _
                        & L1 & L2 & _ & _ & ->)]; cbn [b b2 is_paired].
  - eexists _, r1. rewrite Hh, Hrest. split; [done|]. split; [done|].
    split; [done|]. done.
  - rewrite Hh, Hrest. destruct (bam_is_read2 r1).
    + eexists _, r2. split; [done|]. split; [done|]. split; [done|].
      intros _. eexists _, r1. split; [done|]. split; [done|]. by right.
    + eexists _, r1. split; [done|]. split; [done|]. split; [done|].
      intros _. eexists _, r2. split; [done|]. split; [done|]. by left.
Qed.

Lemma read_consumes_witness :
  (object_ok fresh_object [] /\
   read (fun _ => 4) fresh_object
     (mk_world [] [sample_record 129; sample_record8 65; sample_record 0] [])
   = Ret ((true, mk_aln true 3 (Some 1%nat) (Some 0%nat)),
          mk_world [sample_record 129; sample_record8 65]
                   [sample_record 0] [])) /\
  exists m1 m2,
    [sample_record 129; sample_record8 65; sample_record 0]
    = m2 :: m1 :: [sample_record 0].
Proof.
  assert (E : read (fun _ => 4) fresh_object
                (mk_world []
                   [sample_record 129; sample_record8 65; sample_record 0] [])
              = Ret ((true, mk_aln true 3 (Some 1%nat) (Some 0%nat)),
                     mk_world [sample_record 129; sample_record8 65]
                              [sample_record 0] []))
    by reflexivity.
  split; [split; [apply fresh_object_ok | exact E]|].
  destruct (read_consumes (fun _ => 4) fresh_object _
              (mk_world []
                 [sample_record 129; sample_record8 65; sample_record 0] [])
              _ (fresh_object_ok []) E)
    as (_ & p1 & m1 & Hb & Hm1 & _ & Hp).
  destruct (Hp eq_refl) as (p2 & m2 & Hb2 & Hm2 & Hsrc).
  injection Hb as <-. injection Hb2 as <-.
  cbn in Hm1, Hm2. injection Hm1 as <-. injection Hm2 as <-.
  by eexists _, _.
Defined.

(** X14: [read] keeps the ownership invariant it needs, so it can be
    called again on the object it returns, after a unit as after the end of
    the stream: [b] and [b2] stay valid and distinct.  The store grows by
    at most the two buffers allocated on first use; once both buffers
    exist, [read] allocates nothing and returns the same two buffers,
    possibly exchanged. *)
Theorem read_keeps_ownership (getSeqLength : Z -> Z) (this t' : BamAlignment)
  (w w' : world) (ok : bool) :
  object_ok this (heap w) ->
  read getSeqLength this w = Ret ((ok, t'), w') ->
  object_ok t' (heap w') /\
  (length (heap w) <= length (heap w') <= length (heap w) + 2)%nat /\
  (is_Some (b this) -> is_Some (b2 this) ->
   length (heap w') = length (heap w) /\
   ((b t' = b this /\ b2 t' = b2 this) \/
    (b t' = b2 this /\ b2 t' = b this))).
Proof.
  intros Hok H.
  destruct (read_returns _ _ _ _ _ _ Hok H) as (_ & Hcases).
  pose proof (length_heap_with (b this) (heap w)) as Hge0.
  destruct (length_heap_with_bound (b this) (heap w)) as [Hle0 Heq0].
  assert (Hreuse : forall p h, is_Some p -> Some (buffer_of p h) = p)
    by (by intros p h [a ->]).
  destruct Hcases as [(_ & _ & _ & Hh & ->)
                     | (r1 & rest & Hsrc & _ & Hcases)].
  - (* end of the stream *)
    destruct (object_ok_first this (heap w) empty_record Hok)
      as (Hp1 & _ & _ & Hv2 & Hne).
    apply (valid_ptr_length _ _ (heap_with (b this) (heap w))) in Hv2;
      [|apply length_insert].
    rewrite Hh. split; [|split].
    + split; [|split]; cbn [b b2].
      * intros a [= <-]. done.
      * done.
      * intros a [= <-]. done.
    + lia.
    + intros Hb Hb2. cbn [b b2]. split; [by apply Heq0|].
      left. by rewrite Hreuse.
  - destruct (object_ok_first this (heap w) r1 Hok)
      as (_ & Hp1 & Hl1 & Hv2 & Hne).
    set (h1 := <[buffer_of (b this) (heap w) := r1]>
                 (heap_with (b this) (heap w))) in *.
    assert (Hlen1 : length h1 = length (heap_with (b this) (heap w)))
      by apply length_insert.
    destruct Hcases as [(Hp & _ & Hh & _ & ->)
                       | (Hp & r2 & rest' & _ & _ & _ & _ & Hh & Hne12
                          & L1 & L2 & _ & _ & ->)]; rewrite Hh.
    + split; [|split].
      * split; [|split]; cbn [b b2].
        -- intros a [= <-]. done.
        -- done.
        -- intros a [= <-]. done.
      * lia.
      * intros Hb Hb2. cbn [b b2]. split; [rewrite Hlen1; by apply Heq0|].
        left. by rewrite Hreuse.
    + set (p2 := buffer_of (b2 this) h1) in *.
      pose proof (lookup_lt_Some _ _ _ L1) as Hlt1.
      pose proof (lookup_lt_Some _ _ _ L2) as Hlt2.
      pose proof (length_heap_with (b2 this) h1) as Hge2.
      destruct (length_heap_with_bound (b2 this) h1) as [Hle2 Heq2].
      rewrite length_insert in *. split; [|split].
      * destruct (bam_is_read2 r1); (split; [|split]); cbn [b b2];
          intros a [= <-]; rewrite ?length_insert; try done;
          intros [= E]; by apply Hne12.
      * lia.
      * intros Hb Hb2. split; [rewrite (Heq2 Hb2), Hlen1; by apply Heq0|].
        destruct (bam_is_read2 r1); cbn [b b2]; [right | left];
          unfold p2; by rewrite !Hreuse.
Qed.

Lemma read_keeps_ownership_witness :
  (object_ok (mk_aln true 3 (Some 1%nat) (Some 0%nat))
     [sample_record 129; sample_record8 65] /\
   read (fun _ => 4) (mk_aln true 3 (Some 1%nat) (Some 0%nat))
     (mk_world [sample_record 129; sample_record8 65] [sample_record 4] [])
   = Ret ((true, mk_aln false 0 (Some 1%nat) (Some 0%nat)),
          mk_world [sample_record 129; sample_record 4] [] [])) /\
  object_ok (mk_aln false 0 (Some 1%nat) (Some 0%nat))
    [sample_record 129; sample_record 4].
Proof.
  assert (Hok : object_ok (mk_aln true 3 (Some 1%nat) (Some 0%nat))
                  [sample_record 129; sample_record8 65]).
  { split; [|split]; cbn [b b2].
    - intros a [= <-]. cbn. lia.
    - intros a [= <-]. cbn. lia.
    - intros a [= <-]. discriminate. }
  assert (E : read (fun _ => 4) (mk_aln true 3 (Some 1%nat) (Some 0%nat))
                (mk_world [sample_record 129; sample_record8 65]
                          [sample_record 4] [])
              = Ret ((true, mk_aln false 0 (Some 1%nat) (Some 0%nat)),
                     mk_world [sample_record 129; sample_record 4] [] []))
    by reflexivity.
  split; [split; [exact Hok | exact E]|].
  exact (proj1 (read_keeps_ownership (fun _ => 4) _ _
                  (mk_world [sample_record 129; sample_record8 65]
                            [sample_record 4] []) _ _ Hok E)).
Defined.

(** X15: [read] writes only into its own buffers: a record of the store
    that is neither in [b] nor in [b2] is still there, unchanged, after the
    call. *)
Theorem read_frame (getSeqLength : Z -> Z) (this t' : BamAlignment)
  (w w' : world) (ok : bool) (p : nat) (r : bam1_t) :
  object_ok this (heap w) ->
  read getSeqLength this w = Ret ((ok, t'), w') ->
  heap w !! p = Some r -> b this <> Some p -> b2 this <> Some p ->
  heap w' !! p = Some r.
Proof.
  intros Hok H Hr Hb Hb2.
  destruct (read_returns _ _ _ _ _ _ Hok H) as (_ & Hcases).
  pose proof (lookup_lt_Some _ _ _ Hr) as Hlt.
  assert (H0 : heap_with (b this) (heap w) !! p = Some r)
    by (by rewrite heap_with_lookup).
  assert (Hp1 : buffer_of (b this) (heap w) <> p)
    by (by apply buffer_of_ne).
  destruct Hcases as [(_ & _ & _ & -> & _)
                     | (r1 & rest & Hsrc & _ & Hcases)]; [done|].
  assert (H1 : <[buffer_of (b this) (heap w) := r1]>
                 (heap_with (b this) (heap w)) !! p = Some r)
    by (by rewrite list_lookup_insert_ne).
  destruct Hcases as [(_ & _ & -> & _)
                     | (_ & r2 & rest' & _ & _ & _ & _ & -> & _)]; [done|].
  pose proof (lookup_lt_Some _ _ _ H1) as Hlt1.
  rewrite list_lookup_insert_ne by (by apply buffer_of_ne).
  by rewrite heap_with_lookup.
Qed.

Lemma read_frame_witness :
  (object_ok (mk_aln false 0 (Some 0%nat) None)
     [sample_record 4; sample_legacy 0] /\
   read (fun _ => 4) (mk_aln false 0 (Some 0%nat) None)
     (mk_world [sample_record 4; sample_legacy 0] [sample_record8 4] [])
   = Ret ((true, mk_aln false 0 (Some 0%nat) None),
          mk_world [sample_record8 4; sample_legacy 0] [] [])) /\
  [sample_record8 4; sample_legacy 0] !! 1%nat = Some (sample_legacy 0).
Proof.
  assert (Hok : object_ok (mk_aln false 0 (Some 0%nat) None)
                  [sample_record 4; sample_legacy 0]).
  { split; [|split]; cbn [b b2].
    - intros a [= <-]. cbn. lia.
    - intros a [=].
    - intros a [= <-]. discriminate. }
  assert (E : read (fun _ => 4) (mk_aln false 0 (Some 0%nat) None)
                (mk_world [sample_record 4; sample_legacy 0]
                          [sample_record8 4] [])
              = Ret ((true, mk_aln false 0 (Some 0%nat) None),
                     mk_world [sample_record8 4; sample_legacy 0] [] []))
    by reflexivity.
  split; [split; [exact Hok | exact E]|].
  apply (read_frame (fun _ => 4) _ _
           (mk_world [sample_record 4; sample_legacy 0] [sample_record8 4] [])
           _ _ 1%nat (sample_legacy 0) Hok E); [reflexivity|discriminate..].
Defined.

(** ** More on [write] *)

Lemma write_unfold (grow : buffer -> Z -> buffer) (choice : Z)
  (o : option BamAlignment) (this : BamAlignment) (w : world) :
  0 <= is_aligned this -> is_Some (b this) ->
  (is_paired this = true -> is_Some (b2 this)) ->
  write grow choice o this w
  = (write_reset_qseq this;; write_choice grow choice o this;;
     write_forward this;; mret true) w.
Proof.
  intros Hal Hb Hb2. unfold write.
  replace (0 <=? is_aligned this) with true by (symmetry; by apply Z.leb_le).
  rewrite bool_decide_eq_true_2 by done.
  replace (negb (is_paired this) || bool_decide (is_Some (b2 this)))
    with true.
  - by erewrite bind_Ret by reflexivity.
  - destruct (is_paired this); [|done]. cbn.
    by rewrite bool_decide_eq_true_2 by auto.
Qed.

Lemma assign_eq (p : nat) (r : bam1_t) (w : world) :
  (p < length (heap w))%nat ->
  assign p r w = Ret (tt, mk_world (<[p := r]> (heap w)) (source w) (sink w)).
Proof. intros Hp. unfold assign. by rewrite bool_decide_eq_true_2. Qed.

Lemma reset_at_noop (p : nat) (w : world) (r : bam1_t) :
  heap w !! p = Some r -> l_qname r <> 1 -> reset_at p w = Ret (tt, w).
Proof.
  intros Hr Hn. rewrite (reset_at_eq p w r Hr). unfold reset_qseq.
  destruct (Z.eqb_spec (l_qname r) 1); [done|].
  rewrite list_insert_id by done. by rewrite world_eta.
Qed.

Lemma write_reset_qseq_noop (this : BamAlignment) (w : world) (p1 : nat) :
  b this = Some p1 ->
  (is_paired this = true -> is_Some (b2 this)) ->
  (forall p, unit_buffer this p ->
             exists r, heap w !! p = Some r /\ l_qname r <> 1) ->
  write_reset_qseq this w = Ret (tt, w).
Proof.
  intros Hb Hb2 Hunit. unfold write_reset_qseq. rewrite Hb.
  destruct (Hunit p1) as (r1 & Hr1 & Hn1); [by left|].
  erewrite bind_Ret by reflexivity.
  erewrite bind_Ret by (by eapply reset_at_noop).
  destruct (is_paired this) eqn:Hp; [|done].
  destruct (Hb2 eq_refl) as [p2 Hp2]. rewrite Hp2.
  destruct (Hunit p2) as (r2 & Hr2 & Hn2); [right; by rewrite Hp|].
  erewrite bind_Ret by reflexivity. by eapply reset_at_noop.
Qed.

Lemma writer_write_eq (p : nat) (w : world) (r : bam1_t) :
  heap w !! p = Some r ->
  writer_write p w
  = Ret (tt, mk_world (heap w) (source w) (sink w ++ [r])).
Proof. intros Hr. unfold writer_write. by rewrite Hr. Qed.

Lemma write_forward_unpaired (this : BamAlignment) (w : world) (p1 : nat)
  (m1 : bam1_t) :
  is_paired this = false -> b this = Some p1 -> heap w !! p1 = Some m1 ->
  write_forward this w
  = Ret (tt, mk_world (heap w) (source w) (sink w ++ [m1])).
Proof.
  intros Hp Hb Hm1. unfold write_forward. rewrite Hb, Hp.
  erewrite bind_Ret by reflexivity.
  by erewrite bind_Ret by (by apply writer_write_eq).
Qed.

Lemma write_forward_paired (this : BamAlignment) (w : world) (p1 p2 : nat)
  (m1 m2 : bam1_t) :
  is_paired this = true -> b this = Some p1 -> b2 this = Some p2 ->
  heap w !! p1 = Some m1 -> heap w !! p2 = Some m2 ->
  write_forward this w
  = Ret (tt, mk_world (heap w) (source w) (sink w ++ [m1; m2])).
Proof.
  intros Hp Hb Hb2 Hm1 Hm2. unfold write_forward. rewrite Hb, Hb2, Hp.
  erewrite bind_Ret by reflexivity.
  erewrite bind_Ret by (by apply writer_write_eq).
  erewrite bind_Ret by reflexivity.
  rewrite (writer_write_eq p2 _ m2) by done. cbn [heap source sink].
  by rewrite <- app_assoc.
Qed.

(** X16: [write] is a fatal defect, before anything is changed or
    written, when the object never completed a [read] ([is_aligned] is
    negative), when [b] is [NULL], or when the unit is paired and [b2] is
    [NULL]; the action and the donor do not matter. *)
Theorem write_precondition_fatal (grow : buffer -> Z -> buffer) (choice : Z)
  (o : option BamAlignment) (this : BamAlignment) (w : world) :
  is_aligned this < 0 \/ b this = None \/
  (is_paired this = true /\ b2 this = None) ->
  write grow choice o this w = Fatal "assertion failed".
Proof.
  intros Hbad. unfold write. apply bind_Fatal.
  replace ((0 <=? is_aligned this) && bool_decide (is_Some (b this))
           && (negb (is_paired this) || bool_decide (is_Some (b2 this))))
    with false; [done|].
  symmetry. destruct Hbad as [Hal | [Hb | [Hp Hb2]]].
  - replace (0 <=? is_aligned this) with false; [done|].
    symmetry. apply Z.leb_gt. lia.
  - rewrite Hb. rewrite (bool_decide_eq_false_2 (is_Some None))
      by (by intros [? ?]).
    by rewrite andb_false_r.
  - rewrite Hp, Hb2. rewrite (bool_decide_eq_false_2 (is_Some None))
      by (by intros [? ?]).
    by rewrite andb_false_r.
Qed.

Lemma write_precondition_fatal_witness :
  is_aligned fresh_object < 0 /\
  write grow_zeroed 0 None fresh_object (mk_world [] [] [])
  = Fatal "assertion failed".
Proof.
  assert (H : is_aligned fresh_object < 0) by (cbn; lia).
  split; [exact H|].
  apply (write_precondition_fatal grow_zeroed 0 None fresh_object
           (mk_world [] [] [])).
  by left.
Defined.

(** X17: [read] and [write] compose safely at the end of the stream: when
    [read] has returned [false], a [write] on the object it leaves is a
    fatal defect and forwards nothing, whatever the action. *)
Theorem write_after_end_of_stream (getSeqLength : Z -> Z)
  (grow : buffer -> Z -> buffer) (choice : Z) (o : option BamAlignment)
  (this t' : BamAlignment) (w w' : world) :
  read getSeqLength this w = Ret ((false, t'), w') ->
  write grow choice o t' w' = Fatal "assertion failed".
Proof.
  intros H. apply read_false_inv in H as [_ Hal].
  unfold write. apply bind_Fatal.
  replace (0 <=? is_aligned t') with false; [done|].
  symmetry. apply Z.leb_gt. lia.
Qed.

Lemma write_after_end_of_stream_witness :
  read (fun _ => 4) fresh_object (mk_world [] [] [])
  = Ret ((false, mk_aln false (-1) (Some 0%nat) None),
         mk_world [empty_record] [] []) /\
  write grow_zeroed 0 None (mk_aln false (-1) (Some 0%nat) None)
    (mk_world [empty_record] [] [])
  = Fatal "assertion failed".
Proof.
  assert (E : read (fun _ => 4) fresh_object (mk_world [] [] [])
              = Ret ((false, mk_aln false (-1) (Some 0%nat) None),
                     mk_world [empty_record] [] [])) by reflexivity.
  split; [exact E|].
  exact (write_after_end_of_stream (fun _ => 4) grow_zeroed 0 None _ _ _ _ E).
Defined.

Lemma write_choice_unknown (grow : buffer -> Z -> buffer) (choice : Z)
  (o : option BamAlignment) (this : BamAlignment) (w : world) :
  choice < 0 \/ 2 < choice ->
  write_choice grow choice o this w = Fatal "assertion failed".
Proof.
  intros Hc. unfold write_choice.
  destruct choice as [|[p|[p|p|]|]|p]; try lia; reflexivity.
Qed.

Lemma write_reset_qseq_runs (this : BamAlignment) (w : world) :
  is_Some (b this) -> (is_paired this = true -> is_Some (b2 this)) ->
  (forall p, unit_buffer this p -> is_Some (heap w !! p)) ->
  exists w', write_reset_qseq this w = Ret (tt, w') /\ same_io w w'.
Proof.
  intros [p1 Hb] Hb2 Hvalid. unfold write_reset_qseq. rewrite Hb.
  destruct (Hvalid p1) as [r1 Hr1]; [by left|].
  erewrite bind_Ret by reflexivity.
  erewrite bind_Ret by (by apply reset_at_eq).
  destruct (is_paired this) eqn:Hp.
  - destruct (Hb2 eq_refl) as [p2 Hp2]. rewrite Hp2.
    destruct (Hvalid p2) as [r2 Hr2]; [right; by rewrite Hp|].
    erewrite bind_Ret by reflexivity.
    assert (exists r2', <[p1 := reset_qseq r1]> (heap w) !! p2 = Some r2')
      as [r2' Hr2'].
    { apply lookup_lt_is_Some. rewrite length_insert.
      by eapply lookup_lt_Some. }
    erewrite reset_at_eq by exact Hr2'. eexists. split; [done|].
    unfold same_io. cbn [heap source sink]. by rewrite !length_insert.
  - eexists. split; [done|].
    unfold same_io. cbn [heap source sink]. by rewrite length_insert.
Qed.

(** X18: an action other than 0, 1 and 2 is a fatal defect: for a unit
    that passes the entry assertion and whose buffers exist, [write] stops
    in the [default] branch and forwards nothing. *)
Theorem write_unknown_action (grow : buffer -> Z -> buffer) (choice : Z)
  (o : option BamAlignment) (this : BamAlignment) (w : world) :
  choice < 0 \/ 2 < choice ->
  0 <= is_aligned this -> is_Some (b this) ->
  (is_paired this = true -> is_Some (b2 this)) ->
  (forall p, unit_buffer this p -> is_Some (heap w !! p)) ->
  write grow choice o this w = Fatal "assertion failed".
Proof.
  intros Hc Hal Hb Hb2 Hvalid. rewrite write_unfold by done.
  destruct (write_reset_qseq_runs this w Hb Hb2 Hvalid) as (w' & E & _).
  erewrite bind_Ret by exact E.
  apply bind_Fatal. by apply write_choice_unknown.
Qed.

Lemma write_unknown_action_witness :
  (2 < 3 /\ 0 <= is_aligned (mk_aln false 1 (Some 0%nat) None)) /\
  write grow_zeroed 3 None (mk_aln false 1 (Some 0%nat) None)
    (mk_world [sample_record 0] [] [])
  = Fatal "assertion failed".
Proof.
  assert (Hal : 0 <= is_aligned (mk_aln false 1 (Some 0%nat) None))
    by (cbn; lia).
  split; [split; [lia | exact Hal]|].
  apply (write_unknown_action grow_zeroed 3 None
           (mk_aln false 1 (Some 0%nat) None)
           (mk_world [sample_record 0] [] [])).
  - right. lia.
  - exact Hal.
  - by eexists.
  - intros [=].
  - intros p [Hp | [[=] _]]. injection Hp as <-. by eexists.
Defined.

Lemma write_none_run (grow : buffer -> Z -> buffer)
  (o : option BamAlignment) (this : BamAlignment) (w : world)
  (p1 : nat) (m1 : bam1_t) :
  0 <= is_aligned this -> b this = Some p1 ->
  heap w !! p1 = Some m1 -> l_qname m1 <> 1 ->
  (is_paired this = false ->
   write grow 0 o this w
   = Ret (true, mk_world (heap w) (source w) (sink w ++ [m1]))) /\
  (forall p2 m2,
     is_paired this = true -> b2 this = Some p2 ->
     heap w !! p2 = Some m2 -> l_qname m2 <> 1 ->
     write grow 0 o this w
     = Ret (true, mk_world (heap w) (source w) (sink w ++ [m1; m2]))).
Proof.
  intros Hal Hb Hm1 Hn1. split.
  - intros Hp. rewrite write_unfold; [|done|by eexists|by rewrite Hp].
    erewrite bind_Ret.
    2:{ apply (write_reset_qseq_noop this w p1 Hb); [by rewrite Hp|].
        intros p [Hq | [Hq _]]; [|by rewrite Hp in Hq].
        rewrite Hb in Hq. injection Hq as <-. by exists m1. }
    erewrite bind_Ret by reflexivity.
    by erewrite bind_Ret by (by eapply write_forward_unpaired).
  - intros p2 m2 Hp Hb2 Hm2 Hn2.
    rewrite write_unfold; [|done|by eexists|by eexists].
    erewrite bind_Ret.
    2:{ apply (write_reset_qseq_noop this w p1 Hb); [by eexists|].
        intros p [Hq | [_ Hq]].
        - rewrite Hb in Hq. injection Hq as <-. by exists m1.
        - rewrite Hb2 in Hq. injection Hq as <-. by exists m2. }
    erewrite bind_Ret by reflexivity.
    by erewrite bind_Ret by (by eapply write_forward_paired).
Qed.

(** X19: with action 0 [write] forwards the unit as it is.  For records
    that are not in the legacy form (raw name length other than 1) the
    store is left unchanged and the sink receives the record in [b], then,
    for a paired unit, the record in [b2]; the donor is not looked at. *)
Theorem write_none_forwards (grow : buffer -> Z -> buffer)
  (o : option BamAlignment) (this : BamAlignment) (w : world)
  (p1 : nat) (m1 : bam1_t) :
  0 <= is_aligned this -> b this = Some p1 ->
  heap w !! p1 = Some m1 -> l_qname m1 <> 1 ->
  (is_paired this = false ->
   write grow 0 o this w
   = Ret (true, mk_world (heap w) (source w) (sink w ++ [m1]))) /\
  (forall p2 m2,
     is_paired this = true -> b2 this = Some p2 ->
     heap w !! p2 = Some m2 -> l_qname m2 <> 1 ->
     write grow 0 o this w
     = Ret (true, mk_world (heap w) (source w) (sink w ++ [m1; m2]))).
Proof. apply write_none_run. Qed.

Lemma write_none_forwards_witness :
  (0 <= is_aligned (mk_aln true 3 (Some 1%nat) (Some 0%nat)) /\
   l_qname (sample_record8 65) <> 1) /\
  write grow_zeroed 0 None (mk_aln true 3 (Some 1%nat) (Some 0%nat))
    (mk_world [sample_record 129; sample_record8 65] [] [])
  = Ret (true,
         mk_world [sample_record 129; sample_record8 65] []
                  [sample_record8 65; sample_record 129]).
Proof.
  assert (Hal : 0 <= is_aligned (mk_aln true 3 (Some 1%nat) (Some 0%nat)))
    by (cbn; lia).
  assert (Hn : l_qname (sample_record8 65) <> 1) by (cbn; lia).
  split; [by split|].
  destruct (write_none_forwards grow_zeroed None
              (mk_aln true 3 (Some 1%nat) (Some 0%nat))
              (mk_world [sample_record 129; sample_record8 65] [] [])
              1%nat (sample_record8 65) Hal eq_refl eq_refl Hn)
    as [_ Hpaired].
  apply (Hpaired 0%nat (sample_record 129) eq_refl eq_refl eq_refl).
  cbn. lia.
Defined.

Lemma compacted_form_spec (m : bam1_t) :
  wf_record m ->
  wf_record (compacted_form m) /\ compacted (compacted_form m) /\
  flag (compacted_form m) = flag m /\
  get_cigar (compacted_form m) = get_cigar m /\
  get_aux (compacted_form m) = get_aux m /\
  (compacted m -> compacted_form m = m).
Proof.
  intros Hwf. unfold compacted_form, compacted, logical_name_length.
  destruct (Z.ltb_spec 1 (l_qname m - l_extranul m)) as [Hu | Hc].
  - destruct (compress_spec m Hwf) as (c & Hc & Hf & _).
    rewrite Hc. cbn [default].
    destruct (compress_wf m c Hwf Hc) as [Hwfc Hcomp].
    destruct (compress_segments m c Hwf Hc) as [Hcig Haux].
    split_and!; try done. lia.
  - destruct Hwf as [He Hn Hal Hcn Hq Hl Hi Hcap] eqn:E.
    split_and!; try done. lia.
Qed.

Lemma compress_guard_eq (p : nat) (w : world) (m : bam1_t) :
  heap w !! p = Some m -> wf_record m ->
  (if 1 <? l_qname m - l_extranul m then compress_at p else mret tt) w
  = Ret (tt, mk_world (<[p := compacted_form m]> (heap w))
               (source w) (sink w)).
Proof.
  intros Hm Hwf. unfold compacted_form.
  destruct (1 <? l_qname m - l_extranul m).
  - destruct (compress_spec m Hwf) as (c & Hc & _).
    unfold compress_at. erewrite bind_Ret by (by apply deref_eq).
    rewrite Hc. cbn [default]. apply assign_eq. by eapply lookup_lt_Some.
  - rewrite list_insert_id by done. by rewrite world_eta.
Qed.

(** X20: with action 1 [write] leaves every record of a unit of
    well-formed records compacted: an uncompacted record is replaced in its
    buffer by its [compress]-ed form and forwarded, a record that is
    already compacted is forwarded untouched.  The forwarded records are
    well-formed, keep their flags and carry the CIGAR and auxiliary bytes
    they had; the sink receives [b] first, then [b2]. *)
Theorem write_compress_unit (grow : buffer -> Z -> buffer)
  (o : option BamAlignment) (this : BamAlignment) (w : world)
  (p1 : nat) (m1 : bam1_t) :
  0 <= is_aligned this -> b this = Some p1 ->
  heap w !! p1 = Some m1 -> wf_record m1 ->
  let done1 := compacted_form m1 in
  (wf_record done1 /\ compacted done1 /\ flag done1 = flag m1 /\
   get_cigar done1 = get_cigar m1 /\ get_aux done1 = get_aux m1 /\
   (compacted m1 -> done1 = m1)) /\
  (is_paired this = false ->
   write grow 1 o this w
   = Ret (true, mk_world (<[p1 := done1]> (heap w)) (source w)
                         (sink w ++ [done1]))) /\
  (forall p2 m2,
     is_paired this = true -> b2 this = Some p2 -> p2 <> p1 ->
     heap w !! p2 = Some m2 -> wf_record m2 ->
     let done2 := compacted_form m2 in
     (wf_record done2 /\ compacted done2 /\ flag done2 = flag m2 /\
      get_cigar done2 = get_cigar m2 /\ get_aux done2 = get_aux m2 /\
      (compacted m2 -> done2 = m2)) /\
     write grow 1 o this w
     = Ret (true,
            mk_world (<[p2 := done2]> (<[p1 := done1]> (heap w))) (source w)
                     (sink w ++ [done1; done2]))).
Proof.
  intros Hal Hb Hm1 Hwf1 done1.
  pose proof (lookup_lt_Some _ _ _ Hm1) as Hlt1.
  pose proof (wf_qname_ge4 m1 Hwf1) as H41.
  split; [by apply compacted_form_spec|]. split.
  - intros Hp. rewrite write_unfold; [|done|by eexists|by rewrite Hp].
    erewrite bind_Ret.
    2:{ apply (write_reset_qseq_noop this w p1 Hb); [by rewrite Hp|].
        intros p [Hq | [Hq _]]; [|by rewrite Hp in Hq].
        rewrite Hb in Hq. injection Hq as <-. exists m1. split; [done|lia]. }
    erewrite bind_Ret.
    2:{ unfold write_choice. rewrite Hb, Hp.
        erewrite bind_Ret by reflexivity.
        erewrite bind_Ret by (by apply deref_eq).
        erewrite bind_Ret by (by apply compress_guard_eq).
        reflexivity. }
    erewrite bind_Ret.
    2:{ apply (write_forward_unpaired this _ p1 done1 Hp Hb).
        cbn [heap]. by apply list_lookup_insert_eq. }
    reflexivity.
  - intros p2 m2 Hp Hb2 Hne Hm2 Hwf2 done2.
    pose proof (lookup_lt_Some _ _ _ Hm2) as Hlt2.
    pose proof (wf_qname_ge4 m2 Hwf2) as H42.
    split; [by apply compacted_form_spec|].
    rewrite write_unfold; [|done|by eexists|by eexists].
    erewrite bind_Ret.
    2:{ apply (write_reset_qseq_noop this w p1 Hb); [by eexists|].
        intros p [Hq | [_ Hq]].
        - rewrite Hb in Hq. injection Hq as <-. exists m1. split; [done|lia].
        - rewrite Hb2 in Hq. injection Hq as <-. exists m2.
          split; [done|lia]. }
    erewrite bind_Ret.
    2:{ unfold write_choice. rewrite Hb, Hb2, Hp.
        erewrite bind_Ret by reflexivity.
        erewrite bind_Ret by (by apply deref_eq).
        erewrite bind_Ret by (by apply compress_guard_eq).
        erewrite bind_Ret by reflexivity.
        erewrite bind_Ret.
        2:{ apply deref_eq. cbn [heap].
            rewrite list_lookup_insert_ne by done. exact Hm2. }
        rewrite compress_guard_eq; [reflexivity| |done].
        cbn [heap]. rewrite list_lookup_insert_ne by done. exact Hm2. }
    erewrite bind_Ret.
    2:{ apply (write_forward_paired this _ p1 p2 done1 done2 Hp Hb Hb2).
        - cbn [heap]. rewrite list_lookup_insert_ne by done.
          by apply list_lookup_insert_eq.
        - cbn [heap]. apply list_lookup_insert_eq.
          by rewrite length_insert. }
    reflexivity.
Qed.

Lemma write_compress_unit_witness :
  (0 <= is_aligned (mk_aln true 3 (Some 0%nat) (Some 1%nat)) /\
   wf_record (sample_record8 65) /\ wf_record (sample_compacted 129)) /\
  write grow_zeroed 1 None (mk_aln true 3 (Some 0%nat) (Some 1%nat))
    (mk_world [sample_record8 65; sample_compacted 129] [] [])
  = Ret (true,
         mk_world [sample_compressed8 65; sample_compacted 129] []
                  [sample_compressed8 65; sample_compacted 129]).
Proof.
  assert (Hal : 0 <= is_aligned (mk_aln true 3 (Some 0%nat) (Some 1%nat)))
    by (cbn; lia).
  split.
  { pose proof (sample_record8_wf 65). pose proof (sample_compacted_wf 129).
    tauto. }
  destruct (write_compress_unit grow_zeroed None
              (mk_aln true 3 (Some 0%nat) (Some 1%nat))
              (mk_world [sample_record8 65; sample_compacted 129] [] [])
              0%nat (sample_record8 65) Hal eq_refl eq_refl
              (sample_record8_wf 65))
    as (_ & _ & Hpaired).
  destruct (Hpaired 1%nat (sample_compacted 129) eq_refl eq_refl
              ltac:(discriminate) eq_refl (sample_compacted_wf 129))
    as [_ E].
  rewrite E. reflexivity.
Defined.

Lemma decompress_at_eq (grow : buffer -> Z -> buffer) (p q : nat)
  (w : world) (c donor r : bam1_t) :
  q <> p -> heap w !! p = Some c -> heap w !! q = Some donor ->
  decompress grow c donor = Some r ->
  decompress_at grow p (Some q) w
  = Ret (tt, mk_world (<[p := r]> (heap w)) (source w) (sink w)).
Proof.
  intros Hne Hc Hd Hr. unfold decompress_at.
  erewrite bind_Ret by reflexivity.
  rewrite bool_decide_eq_false_2 by congruence.
  erewrite bind_Ret by (by apply deref_eq).
  erewrite bind_Ret by (by apply deref_eq).
  rewrite Hr. apply assign_eq. by eapply lookup_lt_Some.
Qed.

(** X21: with action 2 [write] restores the record of an unpaired unit
    from the donor's [b]: a well-formed compacted record without sequence
    is replaced in its buffer by the record [decompress] builds from it and
    the donor record, which carries the donor's name and the record's own
    flags, CIGAR and auxiliary bytes, and that record is forwarded; the
    donor's buffer is not modified. *)
Theorem write_decompress_unpaired (grow : buffer -> Z -> buffer)
  (this d : BamAlignment) (w : world) (p q : nat) (c donor : bam1_t) :
  grows grow -> 0 <= is_aligned this -> is_paired this = false ->
  b this = Some p -> heap w !! p = Some c ->
  wf_record c -> compacted c -> l_qseq c = 0 ->
  b d = Some q -> q <> p -> heap w !! q = Some donor -> wf_record donor ->
  restored_length c donor <= INT_MAX ->
  exists r,
    decompress grow c donor = Some r /\
    write grow 2 (Some d) this w
    = Ret (true, mk_world (<[p := r]> (heap w)) (source w) (sink w ++ [r])) /\
    <[p := r]> (heap w) !! q = Some donor /\
    get_qname r = get_qname donor /\ flag r = flag c /\
    get_cigar r = get_cigar c /\ get_aux r = get_aux c.
Proof.
  intros Hg Hal Hp Hb Hc Hwf Hcomp Hq0 Hbd Hne Hd Hwfd Hfit.
  destruct (decompress_compacted grow Hg c donor Hwf Hcomp Hq0 Hwfd Hfit)
    as (r & Hr & (Hf & _) & _ & _ & Hname & Hcig & Haux).
  pose proof (wf_qname_ge4 c Hwf) as H4.
  exists r. split; [done|]. split; [|split].
  - rewrite write_unfold; [|done|by eexists|by rewrite Hp].
    erewrite bind_Ret.
    2:{ apply (write_reset_qseq_noop this w p Hb); [by rewrite Hp|].
        intros p' [Hq | [Hq _]]; [|by rewrite Hp in Hq].
        rewrite Hb in Hq. injection Hq as <-. exists c. split; [done|lia]. }
    erewrite bind_Ret.
    2:{ unfold write_choice. rewrite Hb, Hp.
        erewrite bind_Ret by reflexivity.
        erewrite bind_Ret by (by apply deref_eq).
        replace (l_qname c - l_extranul c =? 1) with true
          by (symmetry; by apply Z.eqb_eq).
        erewrite bind_Ret.
        2:{ erewrite bind_Ret by reflexivity. rewrite Hbd.
            by eapply decompress_at_eq. }
        reflexivity. }
    erewrite bind_Ret.
    2:{ apply (write_forward_unpaired this _ p r Hp Hb).
        cbn [heap]. apply list_lookup_insert_eq. by eapply lookup_lt_Some. }
    reflexivity.
  - by rewrite list_lookup_insert_ne.
  - done.
Qed.

Lemma write_decompress_unpaired_witness :
  (grows grow_zeroed /\
   0 <= is_aligned (mk_aln false 1 (Some 0%nat) None) /\
   wf_record (sample_compacted 0) /\ compacted (sample_compacted 0) /\
   wf_record (sample_record8 0) /\
   restored_length (sample_compacted 0) (sample_record8 0) <= INT_MAX) /\
  write grow_zeroed 2 (Some (mk_aln false 1 (Some 1%nat) None))
    (mk_aln false 1 (Some 0%nat) None)
    (mk_world [sample_compacted 0; sample_record8 0] [] [])
  = Ret (true,
         mk_world [sample_record8 0; sample_record8 0] []
                  [sample_record8 0]).
Proof.
  assert (Hal : 0 <= is_aligned (mk_aln false 1 (Some 0%nat) None))
    by (cbn; lia).
  assert (Hfit : restored_length (sample_compacted 0) (sample_record8 0)
                 <= INT_MAX) by (by vm_compute).
  split.
  { pose proof grow_zeroed_grows. pose proof (sample_compacted_wf 0).
    pose proof (sample_record8_wf 0).
    assert (compacted (sample_compacted 0)) by reflexivity. tauto. }
  destruct (write_decompress_unpaired grow_zeroed
              (mk_aln false 1 (Some 0%nat) None)
              (mk_aln false 1 (Some 1%nat) None)
              (mk_world [sample_compacted 0; sample_record8 0] [] [])
              0%nat 1%nat (sample_compacted 0) (sample_record8 0)
              grow_zeroed_grows Hal eq_refl eq_refl eq_refl
              (sample_compacted_wf 0) eq_refl eq_refl eq_refl
              ltac:(discriminate) eq_refl (sample_record8_wf 0) Hfit)
    as (r & Hr & E & _).
  rewrite E. vm_compute in Hr. injection Hr as <-. reflexivity.
Defined.

Lemma same_io_refl (w : world) : same_io w w.
Proof. by repeat split. Qed.

Lemma same_io_trans (w1 w2 w3 : world) :
  same_io w1 w2 -> same_io w2 w3 -> same_io w1 w3.
Proof.
  intros (A1 & A2 & A3) (B1 & B2 & B3). repeat split; congruence.
Qed.

Lemma assign_io (p : nat) (r : bam1_t) (u : unit) (w w' : world) :
  assign p r w = Ret (u, w') -> same_io w w'.
Proof.
  unfold assign. case_bool_decide; [|done]. intros E. injection E as _ <-.
  repeat split. cbn. apply length_insert.
Qed.

Lemma reset_at_io (p : nat) (u : unit) (w w' : world) :
  reset_at p w = Ret (u, w') -> same_io w w'.
Proof.
  unfold reset_at. intros H.
  apply bind_Ret_inv in H as (r & w1 & E & H).
  apply deref_inv in E as [-> _].
  destruct (l_qname r =? 1).
  - by eapply assign_io.
  - apply mret_Ret_inv in H as [_ ->]. apply same_io_refl.
Qed.

Lemma compress_at_io (p : nat) (u : unit) (w w' : world) :
  compress_at p w = Ret (u, w') -> same_io w w'.
Proof.
  unfold compress_at. intros H.
  apply bind_Ret_inv in H as (r & w1 & E & H).
  apply deref_inv in E as [-> _].
  destruct (compress r); [|done]. by eapply assign_io.
Qed.

Lemma decompress_at_io (grow : buffer -> Z -> buffer) (p : nat)
  (q : option nat) (u : unit) (w w' : world) :
  decompress_at grow p q w = Ret (u, w') -> same_io w w'.
Proof.
  unfold decompress_at. intros H.
  apply bind_Ret_inv in H as (a & w1 & E & H).
  apply nonnull_inv in E as [_ ->].
  case_bool_decide; [done|].
  apply bind_Ret_inv in H as (r & w2 & E & H).
  apply deref_inv in E as [-> _].
  apply bind_Ret_inv in H as (other & w3 & E & H).
  apply deref_inv in E as [-> _].
  destruct (decompress grow r other); [|done]. by eapply assign_io.
Qed.

Lemma write_reset_qseq_io (this : BamAlignment) (u : unit) (w w' : world) :
  write_reset_qseq this w = Ret (u, w') -> same_io w w'.
Proof.
  unfold write_reset_qseq. intros H.
  apply bind_Ret_inv in H as (pb & w1 & E & H).
  apply nonnull_inv in E as [_ ->].
  apply bind_Ret_inv in H as (u1 & w2 & E & H).
  apply reset_at_io in E.
  apply (same_io_trans _ _ _ E).
  destruct (is_paired this).
  - apply bind_Ret_inv in H as (pb2 & w3 & E2 & H).
    apply nonnull_inv in E2 as [_ ->]. by eapply reset_at_io.
  - apply mret_Ret_inv in H as [_ ->]. apply same_io_refl.
Qed.

Lemma donor_inv (o : option BamAlignment)
  (field : BamAlignment -> option nat) (q : option nat) (w w' : world) :
  donor o field w = Ret (q, w') -> w' = w.
Proof. destruct o; [|done]. intros E. by injection E as _ <-. Qed.

Lemma write_choice_io (grow : buffer -> Z -> buffer) (choice : Z)
  (o : option BamAlignment) (this : BamAlignment) (u : unit) (w w' : world) :
  write_choice grow choice o this w = Ret (u, w') -> same_io w w'.
Proof.
  unfold write_choice. intros H.
  destruct choice as [|[p|[p|p|]|]|p]; try discriminate H.
  - apply mret_Ret_inv in H as [_ ->]. apply same_io_refl.
  - (* 2 *)
    apply bind_Ret_inv in H as (pb & w1 & E & H).
    apply nonnull_inv in E as [_ ->].
    apply bind_Ret_inv in H as (r & w2 & E & H).
    apply deref_inv in E as [-> _].
    apply bind_Ret_inv in H as (u1 & w3 & E & H).
    assert (Hio1 : same_io w w3).
    { destruct (l_qname r - l_extranul r =? 1).
      - apply bind_Ret_inv in E as (q & w4 & E1 & E).
        apply donor_inv in E1 as ->. by eapply decompress_at_io.
      - apply mret_Ret_inv in E as [_ ->]. apply same_io_refl. }
    apply (same_io_trans _ _ _ Hio1).
    destruct (is_paired this).
    + apply bind_Ret_inv in H as (pb2 & w4 & E2 & H).
      apply nonnull_inv in E2 as [_ ->].
      apply bind_Ret_inv in H as (r2 & w5 & E2 & H).
      apply deref_inv in E2 as [-> _].
      apply bind_Ret_inv in H as (r' & w6 & E2 & H).
      apply deref_inv in E2 as [-> _].
      destruct (l_qname r2 - l_extranul r' =? 1).
      * apply bind_Ret_inv in H as (q & w7 & E1 & H).
        apply donor_inv in E1 as ->. by eapply decompress_at_io.
      * apply mret_Ret_inv in H as [_ ->]. apply same_io_refl.
    + apply mret_Ret_inv in H as [_ ->]. apply same_io_refl.
  - (* 1 *)
    apply bind_Ret_inv in H as (pb & w1 & E & H).
    apply nonnull_inv in E as [_ ->].
    apply bind_Ret_inv in H as (r & w2 & E & H).
    apply deref_inv in E as [-> _].
    apply bind_Ret_inv in H as (u1 & w3 & E & H).
    assert (Hio1 : same_io w w3).
    { destruct (1 <? l_qname r - l_extranul r).
      - by eapply compress_at_io.
      - apply mret_Ret_inv in E as [_ ->]. apply same_io_refl. }
    apply (same_io_trans _ _ _ Hio1).
    destruct (is_paired this).
    + apply bind_Ret_inv in H as (pb2 & w4 & E2 & H).
      apply nonnull_inv in E2 as [_ ->].
      apply bind_Ret_inv in H as (r2 & w5 & E2 & H).
      apply deref_inv in E2 as [-> _].
      destruct (1 <? l_qname r2 - l_extranul r2).
      * by eapply compress_at_io.
      * apply mret_Ret_inv in H as [_ ->]. apply same_io_refl.
    + apply mret_Ret_inv in H as [_ ->]. apply same_io_refl.
Qed.

Lemma writer_write_inv (p : nat) (u : unit) (w w' : world) :
  writer_write p w = Ret (u, w') ->
  exists r, heap w !! p = Some r /\
            w' = mk_world (heap w) (source w) (sink w ++ [r]).
Proof.
  unfold writer_write. destruct (heap w !! p) as [r|]; [|done].
  intros E. injection E as _ <-. by exists r.
Qed.

(** X22: whenever [write] returns, it returns [true]; it has read nothing
    from the source and allocated no buffer, and it has appended to the
    sink exactly the records of the unit as they stand in the store after
    the action: the record in [b], followed for a paired unit by the record
    in [b2]. *)
Theorem write_appends (grow : buffer -> Z -> buffer) (choice : Z)
  (o : option BamAlignment) (this : BamAlignment) (w w' : world)
  (ok : bool) :
  write grow choice o this w = Ret (ok, w') ->
  ok = true /\ source w' = source w /\
  length (heap w') = length (heap w) /\
  exists p1 m1,
    b this = Some p1 /\ heap w' !! p1 = Some m1 /\
    (is_paired this = false -> sink w' = sink w ++ [m1]) /\
    (is_paired this = true ->
     exists p2 m2,
       b2 this = Some p2 /\ heap w' !! p2 = Some m2 /\
       sink w' = sink w ++ [m1; m2]).
Proof.
  intros H. unfold write in H.
  apply bind_Ret_inv in H as (u0 & w0 & E0 & H).
  apply assert_inv in E0 as [_ ->].
  apply bind_Ret_inv in H as (u1 & w1 & E1 & H).
  apply write_reset_qseq_io in E1.
  apply bind_Ret_inv in H as (u2 & w2 & E2 & H).
  apply write_choice_io in E2.
  destruct (same_io_trans _ _ _ E1 E2) as (Hsrc & Hsnk & Hlen).
  apply bind_Ret_inv in H as (u3 & w3 & E3 & H).
  apply mret_Ret_inv in H as [-> ->].
  unfold write_forward in E3.
  apply bind_Ret_inv in E3 as (p1 & w4 & E & E3).
  apply nonnull_inv in E as [Hb ->].
  apply bind_Ret_inv in E3 as (u4 & w5 & E & E3).
  apply writer_write_inv in E as (m1 & Hm1 & ->).
  destruct (is_paired this).
  - apply bind_Ret_inv in E3 as (p2 & w6 & E & E3).
    apply nonnull_inv in E as [Hb2 ->].
    apply writer_write_inv in E3 as (m2 & Hm2 & ->).
    cbn [heap source sink] in *.
    split; [done|]. split; [done|]. split; [done|].
    exists p1, m1. split; [done|]. split; [done|]. split; [done|].
    intros _. exists p2, m2. split; [done|]. split; [done|].
    by rewrite Hsnk, <- app_assoc.
  - apply mret_Ret_inv in E3 as [_ ->]. cbn [heap source sink].
    split; [done|]. split; [done|]. split; [done|].
    exists p1, m1. split; [done|]. split; [done|]. split; [|done].
    intros _. by rewrite Hsnk.
Qed.

Lemma write_appends_witness :
  write grow_zeroed 1 None (mk_aln true 3 (Some 0%nat) (Some 1%nat))
    (mk_world [sample_record8 65; sample_compacted 129]
              [sample_record 0] [sample_record 4])
  = Ret (true,
         mk_world [sample_compressed8 65; sample_compacted 129]
                  [sample_record 0]
                  [sample_record 4; sample_compressed8 65;
                   sample_compacted 129]) /\
  exists m1 m2,
    [sample_record 4; sample_compressed8 65; sample_compacted 129]
    = [sample_record 4] ++ [m1; m2].
Proof.
  assert (E : write grow_zeroed 1 None
                (mk_aln true 3 (Some 0%nat) (Some 1%nat))
                (mk_world [sample_record8 65; sample_compacted 129]
                          [sample_record 0] [sample_record 4])
              = Ret (true,
                     mk_world [sample_compressed8 65; sample_compacted 129]
                              [sample_record 0]
                              [sample_record 4; sample_compressed8 65;
                               sample_compacted 129])) by reflexivity.
  split; [exact E|].
  destruct (write_appends _ _ _ _ _ _ _ E)
    as (_ & _ & _ & p1 & m1 & _ & _ & _ & Hp).
  destruct (Hp eq_refl) as (p2 & m2 & _ & _ & Hsink).
  by exists m1, m2.
Defined.


